(** * tri_state_CA: a three-state, two-cell-neighbourhood cellular automaton

    Shallow embedding of [tri_state_CA.py] (functions [rule_in_base],
    [lookup_table] and class [TriStateCA]) and the properties of the rule
    decoder and of the automaton engine.

    Python integers are [Z]; [//] and [%] are [Z.div] and [Z.modulo] (both
    floor, sign of the divisor).  Python lists are objects with identity: a
    configuration lives in a store of list objects and is named by its
    location, so that two names of one list are visibly the same list.
    A Python [dict] keyed by pairs is a [gmap (Z * Z) Z]. *)

From Stdlib Require Import Ascii String ZArith Lia.
From stdpp Require Import base numbers list option strings gmap.

Open Scope Z_scope.

(** ** Python values, exceptions and outcomes *)

(** A binary float: finite [m * 2^e], or one of the three special values. *)
Inductive pyfloat :=
  | FFinite (m e : Z)
  | FNaN
  | FPosInf
  | FNegInf.

(** The dynamically typed arguments of the public functions. *)
Inductive pyval :=
  | PyInt (z : Z)
  | PyFloat (f : pyfloat)
  | PyStr (s : string)
  | PyNone.

Inductive exn :=
  | ValueError (msg : string)
  | TypeError
  | OverflowError
  | ZeroDivisionError
  | IndexError
  | KeyError.

(** What a call does: it returns, it raises, or it loops for ever. *)
Inductive outcome (A : Type) :=
  | Returns (a : A)
  | Raises (e : exn)
  | Diverges.
Arguments Returns {A} a.
Arguments Raises {A} e.
Arguments Diverges {A}.

#[global] Instance outcome_ret : MRet outcome := @Returns.
#[global] Instance outcome_bind : MBind outcome := λ A B f m,
  match m with
  | Returns a => f a
  | Raises e => Raises e
  | Diverges => Diverges
  end.

(** The three error kinds of the specification are all [ValueError] in the
    code; the message tells them apart. *)
Definition InvalidBase : exn := ValueError "base must be a positive int".
Definition InvalidRule : exn :=
  ValueError "rule_number must be an int between 0 and 19682,inclusive".
Definition InvalidConfiguration : exn :=
  ValueError "initial condition must be a list of 0s, 1sand 2s".
Definition InvalidStepCount : exn :=
  ValueError "time_steps must be a non-negative integer".

(** [v < 0]: defined on numbers, [TypeError] on [str] and [None]. *)
Definition py_lt_zero (v : pyval) : outcome bool :=
  match v with
  | PyInt z => Returns (z <? 0)
  | PyFloat (FFinite m _) => Returns (m <? 0)
  | PyFloat FNegInf => Returns true
  | PyFloat _ => Returns false
  | PyStr _ | PyNone => Raises TypeError
  end.

(** Decimal literals read by [int(str)]: an optional sign, then digits.
    (Python also accepts surrounding blanks and single underscores between
    digits; they are left out, [evolve] never reaches [int] on a string.) *)
Definition digit_of (a : ascii) : option Z :=
  let n := Z.of_nat (nat_of_ascii a) in
  if (48 <=? n) && (n <=? 57) then Some (n - 48) else None.

Fixpoint digits_value (acc : Z) (cs : list ascii) : option Z :=
  match cs with
  | [] => Some acc
  | c :: cs' => d ← digit_of c; digits_value (10 * acc + d) cs'
  end.

Definition int_of_literal (s : string) : option Z :=
  match list_ascii_of_string s with
  | [] => None
  | c :: cs =>
      if decide (c = "-"%char) then
        match cs with [] => None | _ => Z.opp <$> digits_value 0 cs end
      else if decide (c = "+"%char) then
        match cs with [] => None | _ => digits_value 0 cs end
      else digits_value 0 (c :: cs)
  end.

(** [int(v)]: truncation towards zero on floats, [ValueError] on NaN and on a
    string that is no literal, [OverflowError] on an infinity, [TypeError] on
    [None]. *)
Definition py_int (v : pyval) : outcome Z :=
  match v with
  | PyInt z => Returns z
  | PyFloat (FFinite m e) =>
      Returns (if 0 <=? e then m * 2 ^ e else Z.quot m (2 ^ (- e)))
  | PyFloat FNaN => Raises (ValueError "cannot convert float NaN to integer")
  | PyFloat _ => Raises OverflowError
  | PyStr s =>
      match int_of_literal s with
      | Some z => Returns z
      | None => Raises (ValueError "invalid literal for int() with base 10")
      end
  | PyNone => Raises TypeError
  end.

(** [l[i]] on a list, with Python's negative indices. *)
Definition list_getitem (l : list Z) (i : Z) : outcome Z :=
  let n := Z.of_nat (length l) in
  let j := if i <? 0 then i + n else i in
  if (j <? 0) || (n <=? j) then Raises IndexError
  else match l !! Z.to_nat j with
       | Some x => Returns x
       | None => Raises IndexError
       end.

(** [d[k]] on a dict. *)
Definition dict_getitem (d : gmap (Z * Z) Z) (k : Z * Z) : outcome Z :=
  match d !! k with
  | Some v => Returns v
  | None => Raises KeyError
  end.

(** [dict(pairs)]: a later pair with the same key overwrites an earlier one. *)
Definition dict_of (pairs : list ((Z * Z) * Z)) : gmap (Z * Z) Z :=
  foldl (λ d p, <[p.1 := p.2]> d) ∅ pairs.

(** [range(n)] *)
Definition range (n : Z) : list Z := Z.of_nat <$> seq 0 (Z.to_nat n).

(** ** The rule decoder *)

Module tri_state_CA.

(** The [while quotient >= base] loop of [rule_in_base].  The loop runs for
    ever exactly when [base = 1] and [quotient >= 1]; the recursion is on a
    bound on the number of iterations, which [rule_in_base] chooses large
    enough for every other case, and running out of it is [Diverges]
    (lemma [rule_in_base_Diverges] below). *)
Fixpoint rule_in_base_loop (bound : nat) (base dividend quotient : Z)
    (rule_number_in_base : list Z) : outcome (Z * list Z) :=
  if quotient >=? base then
    match bound with
    | O => Diverges
    | S bound' =>
        if base =? 0 then Raises ZeroDivisionError
        else
          let quotient' := dividend / base in
          let rule_number_in_base' := dividend `mod` base :: rule_number_in_base in
          let dividend' := quotient' in
          rule_in_base_loop bound' base dividend' quotient' rule_number_in_base'
    end
  else Returns (quotient, rule_number_in_base).

Definition rule_in_base (rule_number base key_number : Z) : outcome (list Z) :=
  if base <? 0 then Raises InvalidBase
  else
    '(quotient, rule_number_in_base) ←
      rule_in_base_loop (S (Z.to_nat rule_number)) base rule_number rule_number [];
    let rule_number_in_base := quotient :: rule_number_in_base in
    mret (replicate (Z.to_nat (key_number - Z.of_nat (length rule_number_in_base))) 0
            ++ rule_number_in_base).

Definition neighborhoods : list (Z * Z) :=
  [(0,0); (0,1); (0,2); (1,0); (1,1); (1,2); (2,0); (2,1); (2,2)].

(** [isinstance(rule_number, int)] holds of the first constructor only. *)
Definition lookup_table (rule_number : pyval) : outcome (gmap (Z * Z) Z) :=
  match rule_number with
  | PyInt n =>
      if (n <? 0) || (n >? 19682) then Raises InvalidRule
      else
        rule_number_in_base ← rule_in_base n 3 (Z.of_nat (length neighborhoods));
        mret (dict_of (zip neighborhoods rule_number_in_base))
  | _ => Raises InvalidRule
  end.

(** ** The engine *)

(** The store of list objects; a location is an index into it, and a new
    object goes at the end.  Python has no dangling reference: the lemmas
    that need it assume the location is in the store, and reading outside it
    ([!!!]) gives the empty list. *)
Abbreviation loc := nat (only parsing).
Abbreviation heap := (list (list Z)) (only parsing).

(** [for x in xs: body], where the body may raise and updates a state. *)
Fixpoint for_in {S : Type} (xs : list Z) (body : Z → S → outcome () * S) (s : S)
    : outcome () * S :=
  match xs with
  | [] => (Returns (), s)
  | x :: xs' =>
      match body x s with
      | (Returns _, s') => for_in xs' body s'
      | (o, s') => (o, s')
      end
  end.

Module TriStateCA.

(** The attributes of an engine.  The configurations are named by their
    locations, so that [spacetime] is the list of references that the Python
    list holds; that list itself is made by the constructor and only ever
    appended to. *)
Record t := {
  lookup_table : gmap (Z * Z) Z;
  initial : loc;
  spacetime : list loc;
  current_configuration : loc;
  _length : Z
}.

(** The validation loop at the head of the constructor. *)
Fixpoint check_initial_condition (initial_condition : list Z) : outcome () :=
  match initial_condition with
  | [] => Returns ()
  | i :: rest =>
      if bool_decide (i ∈ [0; 1; 2]) then check_initial_condition rest
      else Raises InvalidConfiguration
  end.

Definition __init__ (rule_number : pyval) (initial_condition : loc) (h : heap)
    : outcome t * heap :=
  match check_initial_condition (h !!! initial_condition) with
  | Returns _ =>
      match tri_state_CA.lookup_table rule_number with
      | Returns table =>
          let copy := length h in
          (Returns {| lookup_table := table;
                      initial := initial_condition;
                      spacetime := [initial_condition];
                      current_configuration := copy;
                      _length := Z.of_nat (length (h !!! initial_condition)) |},
           h ++ [h !!! initial_condition])
      | Raises e => (Raises e, h)
      | Diverges => (Diverges, h)
      end
  | Raises e => (Raises e, h)
  | Diverges => (Diverges, h)
  end.

(** The body of the inner loop: one cell of the new configuration. *)
Definition evolve_cell (self : t) (h : heap) (i : Z) (new_configuration : list Z)
    : outcome () * list Z :=
  let current := h !!! current_configuration self in
  match
    left ← list_getitem current (i - 1);
    self_ ← list_getitem current i;
    dict_getitem (lookup_table self) (left, self_)
  with
  | Returns out => (Returns (), new_configuration ++ [out])
  | Raises e => (Raises e, new_configuration)
  | Diverges => (Diverges, new_configuration)
  end.

(** The body of the outer loop: one time step. *)
Definition evolve_step (_ : Z) (s : t * heap) : outcome () * (t * heap) :=
  let '(self, h) := s in
  match for_in (range (_length self)) (evolve_cell self h) [] with
  | (Returns _, new_configuration) =>
      let new := length h in
      (Returns (),
       ({| lookup_table := lookup_table self;
           initial := initial self;
           spacetime := spacetime self ++ [new];
           current_configuration := new;
           _length := _length self |},
        h ++ [new_configuration]))
  | (Raises e, _) => (Raises e, s)
  | (Diverges, _) => (Diverges, s)
  end.

Definition evolve (time_steps : pyval) (s : t * heap) : outcome () * (t * heap) :=
  match py_lt_zero time_steps with
  | Returns true => (Raises InvalidStepCount, s)
  | Returns false =>
      match py_int time_steps with
      | Returns time_steps => for_in (range time_steps) evolve_step s
      | Raises (ValueError _) => (Raises InvalidStepCount, s)
      | Raises e => (Raises e, s)
      | Diverges => (Diverges, s)
      end
  | Raises e => (Raises e, s)
  | Diverges => (Diverges, s)
  end.

End TriStateCA.
End tri_state_CA.

Import tri_state_CA.

(** What a caller reads off an engine: the history and the current
    configuration as values. *)
Definition history (s : TriStateCA.t * heap) : list (list Z) :=
  (λ l, s.2 !!! l) <$> TriStateCA.spacetime s.1.

Definition current (s : TriStateCA.t * heap) : list Z :=
  s.2 !!! TriStateCA.current_configuration s.1.

(** The base-3 numeral of [q] on [n] digits, most significant first. *)
Fixpoint base3_digits (n : nat) (q : Z) : list Z :=
  match n with
  | O => []
  | S n' => base3_digits n' (q / 3) ++ [q `mod` 3]
  end.

(** Digit [i] (counted from the most significant one) of the base-3 numeral
    of [r] left-padded with zeros to [width] digits. *)
Definition base3_digit (width : nat) (r : Z) (i : nat) : Z :=
  (r / 3 ^ Z.of_nat (width - 1 - i)) `mod` 3.

(** Every neighbourhood of ternary cells has an entry, and it is a ternary
    cell value. *)
Definition table_total (d : gmap (Z * Z) Z) : Prop :=
  ∀ a b, 0 ≤ a < 3 → 0 ≤ b < 3 → ∃ v, d !! (a, b) = Some v ∧ 0 ≤ v < 3.

(** A configuration of length [L]: [L] cells, each 0, 1 or 2. *)
Definition cell_value (x : Z) : Prop := 0 ≤ x < 3.

Definition configuration (L : nat) (c : list Z) : Prop :=
  length c = L ∧ Forall cell_value c.

Definition valid_rule (rule_number : pyval) : Prop :=
  ∃ r, rule_number = PyInt r ∧ 0 ≤ r ≤ 19682.

(** The neighbourhood of cell [i] on the circular lattice [old]. *)
Definition neighborhood_at (old : list Z) (i : Z) : Z * Z :=
  (old !!! Z.to_nat ((i - 1) `mod` Z.of_nat (length old)), old !!! Z.to_nat i).

(** The caller's [xs[i] = v] on the list object at [xs]. *)
Definition list_setitem (xs : loc) (i : nat) (v : Z) (h : heap) : heap :=
  <[xs := <[i := v]> (h !!! xs)]> h.

(** The step count [evolve] settles on before it touches the engine: the
    sign test, then the coercion. *)
Definition step_count (time_steps : pyval) : outcome Z :=
  match py_lt_zero time_steps with
  | Returns true => Raises InvalidStepCount
  | Returns false =>
      match py_int time_steps with
      | Raises (ValueError _) => Raises InvalidStepCount
      | o => o
      end
  | Raises e => Raises e
  | Diverges => Diverges
  end.

(** One call after another; an exception ends the sequence. *)
Definition and_then {S : Type} (m1 m2 : S → outcome () * S) (s : S)
    : outcome () * S :=
  match m1 s with
  | (Returns _, s') => m2 s'
  | r => r
  end.

(** A whole run: construction on the list at [initial_condition], then one
    [evolve]; what it yields is the history and the current configuration. *)
Definition run (rule_number : pyval) (initial_condition : loc)
    (time_steps : pyval) (h : heap) : outcome (list (list Z) * list Z) :=
  match TriStateCA.__init__ rule_number initial_condition h with
  | (Returns self, h') =>
      match TriStateCA.evolve time_steps (self, h') with
      | (Returns _, s') => Returns (history s', current s')
      | (Raises e, _) => Raises e
      | (Diverges, _) => Diverges
      end
  | (Raises e, _) => Raises e
  | (Diverges, _) => Diverges
  end.

(** The engine states: what construction on a list holding [C] gives, and
    what successful [evolve] calls make of it. *)
Inductive reachable (rule_number : pyval) (C : list Z)
    : TriStateCA.t * heap → Prop :=
  | reachable_init h initial_condition self h' :
      h !! initial_condition = Some C →
      TriStateCA.__init__ rule_number initial_condition h = (Returns self, h') →
      reachable rule_number C (self, h')
  | reachable_evolve s time_steps s' :
      reachable rule_number C s →
      TriStateCA.evolve time_steps s = (Returns (), s') →
      reachable rule_number C s'.

(** A sample engine state: rule 5 constructed on [1, 0, 2, 1], the caller's
    list at location 0 and the engine's copy at location 1. *)
Definition sample_state : TriStateCA.t * heap :=
  ({| TriStateCA.lookup_table := dict_of (zip neighborhoods (base3_digits 9 5));
      TriStateCA.initial := 0%nat;
      TriStateCA.spacetime := [0%nat];
      TriStateCA.current_configuration := 1%nat;
      TriStateCA._length := 4 |},
   [[1; 0; 2; 1]; [1; 0; 2; 1]]).

(** The sample state two steps later, after [evolve(2)]: the two new
    configurations are at locations 2 and 3, and the current configuration
    is the second of them. *)
Definition sample_state_evolved : TriStateCA.t * heap :=
  ({| TriStateCA.lookup_table := dict_of (zip neighborhoods (base3_digits 9 5));
      TriStateCA.initial := 0%nat;
      TriStateCA.spacetime := [0%nat; 2%nat; 3%nat];
      TriStateCA.current_configuration := 3%nat;
      TriStateCA._length := 4 |},
   [[1; 0; 2; 1]; [1; 0; 2; 1]; [0; 0; 0; 1]; [0; 0; 0; 0]]).

(** Rule 5 constructed on the homogeneous [2, 2, 2] and evolved by two
    steps. *)
Definition homogeneous_state_evolved : TriStateCA.t * heap :=
  ({| TriStateCA.lookup_table := dict_of (zip neighborhoods (base3_digits 9 5));
      TriStateCA.initial := 0%nat;
      TriStateCA.spacetime := [0%nat; 2%nat; 3%nat];
      TriStateCA.current_configuration := 3%nat;
      TriStateCA._length := 3 |},
   [[2; 2; 2]; [2; 2; 2]; [2; 2; 2]; [2; 2; 2]]).

(** What holds of every engine state. *)
Record engine_inv (C : list Z) (s : TriStateCA.t * heap) : Prop := {
  inv_table : table_total (TriStateCA.lookup_table s.1);
  inv_length : TriStateCA._length s.1 = Z.of_nat (length C);
  inv_initial : (TriStateCA.initial s.1 < length s.2)%nat;
  inv_spacetime : Forall (λ l, (l < length s.2)%nat) (TriStateCA.spacetime s.1);
  inv_current_loc : (TriStateCA.current_configuration s.1 < length s.2)%nat;
  inv_current : configuration (length C) (current s);
  inv_history : Forall (configuration (length C)) (history s);
  inv_last : last (history s) = Some (current s)
}.

(** ** Further code of [tri_state_CA.py] *)

(** The value of a digit sequence in [base], most significant digit first. *)
Definition numeral_value (base : Z) (ds : list Z) : Z :=
  foldl (λ acc d, acc * base + d) 0 ds.

(** [random.randint(a, b)] is library code: what its documentation promises
    is an integer [N] with [a <= N <= b] and a generator that moves on.  The
    generator is a supply of raw draws and [randint] reduces the next one
    into [a, b]; the properties proved of [random_string] rest on the range
    alone, not on how a draw becomes a cell. *)
Abbreviation rng := (nat → nat) (only parsing).

Definition randint (a b : Z) (g : rng) : Z * rng :=
  (a + Z.of_nat (g 0%nat) `mod` (b - a + 1), λ i, g (S i)).


(** The comprehension [[random.randint(0,2) for _ in range(length)]]. *)
Fixpoint random_cells (xs : list Z) (g : rng) : list Z * rng :=
  match xs with
  | [] => ([], g)
  | _ :: xs' =>
      let '(x, g1) := randint 0 2 g in
      let '(rest, g2) := random_cells xs' g1 in
      (x :: rest, g2)
  end.

Definition random_string (length : pyval) (g : rng) : outcome (list Z) * rng :=
  match length with
  | PyInt n =>
      if n <? 0 then
        (Raises (ValueError "input length must be a positive ingeter"), g)
      else
        let '(out, g') := random_cells (range n) g in (Returns out, g')
  | _ => (Raises (ValueError "input length must be a positive ingeter"), g)
  end.

(** [c'] is what one step makes of [c] under the table: the same length,
    and in each cell the table's entry for the neighbourhood in [c]. *)
Definition successor (table : gmap (Z * Z) Z) (c c' : list Z) : Prop :=
  length c' = length c ∧
  ∀ i, 0 ≤ i < Z.of_nat (length c) →
    c' !! Z.to_nat i = table !! neighborhood_at c i.

(** Every entry of a history after the first is the successor of the entry
    before it. *)
Definition orbit (table : gmap (Z * Z) Z) (hist : list (list Z)) : Prop :=
  ∀ t c c', hist !! t = Some c → hist !! S t = Some c' → successor table c c'.

(** The step counts that pass both the sign test and the coercion: the
    integers and the finite floats that are not negative. *)
Definition accepted_step_count (time_steps : pyval) : Prop :=
  match time_steps with
  | PyInt n => 0 ≤ n
  | PyFloat (FFinite m _) => 0 ≤ m
  | _ => False
  end.

(** [a] and [b] hold the same values in cell [i] and in the [n] cells to
    its left, around the ring. *)
Definition agree_back (n : nat) (i : Z) (a b : list Z) : Prop :=
  ∀ j, 0 ≤ j ≤ Z.of_nat n →
    a !! Z.to_nat ((i - j) `mod` Z.of_nat (length a))
    = b !! Z.to_nat ((i - j) `mod` Z.of_nat (length a)).

(** ** The rule decoder: proofs *)

Lemma length_base3_digits n q : length (base3_digits n q) = n.
Proof.
  revert q; induction n as [|n IH]; intros q; simpl; [done|].
  rewrite length_app, IH; simpl; lia.
Qed.

Lemma base3_digits_zero n : base3_digits n 0 = replicate n 0.
Proof.
  induction n as [|n IH]; simpl; [done|].
  rewrite Zdiv_0_l, IH, Zmod_0_l.
  change [0] with (replicate 1 0). rewrite <- replicate_add.
  by replace (n + 1)%nat with (S n) by lia.
Qed.

Lemma base3_digits_lookup n q i :
  (i < n)%nat → 0 ≤ q → base3_digits n q !! i = Some (base3_digit n q i).
Proof.
  revert q i; induction n as [|n IH]; intros q i Hi Hq; [lia|].
  simpl. destruct (decide (i = n)) as [->|Hne].
  - rewrite lookup_app_r by (rewrite length_base3_digits; lia).
    rewrite length_base3_digits, Nat.sub_diag. simpl.
    unfold base3_digit. replace (S n - 1 - n)%nat with 0%nat by lia.
    by rewrite Z.pow_0_r, Z.div_1_r.
  - rewrite lookup_app_l by (rewrite length_base3_digits; lia).
    rewrite IH by (try apply Z.div_pos; lia). f_equal. unfold base3_digit.
    replace (Z.of_nat (S n - 1 - i)) with (Z.succ (Z.of_nat (n - 1 - i))) by lia.
    rewrite Z.pow_succ_r by lia.
    rewrite Z.div_div by (try apply Z.pow_pos_nonneg; lia). done.
Qed.

(** With a bound of at least [q], the loop on [q] returns, and what it
    returns is the numeral of [q] short of its leading zeros. *)
Lemma rule_in_base_loop_spec n : ∀ bound q acc,
  0 ≤ q < 3 ^ Z.of_nat (S n) → q ≤ Z.of_nat bound →
  ∃ q' ds,
    rule_in_base_loop bound 3 q q acc = Returns (q', ds ++ acc) ∧
    (length ds ≤ n)%nat ∧
    replicate (n - length ds) 0 ++ q' :: ds = base3_digits (S n) q.
Proof.
  induction n as [|n IH]; intros bound q acc Hq Hb.
  - exists q, []. change (3 ^ Z.of_nat 1) with 3 in Hq.
    destruct bound; simpl; (destruct (Z.geb_spec q 3); [lia|]);
      (split_and!; [done|done|]); rewrite Z.mod_small by lia; done.
  - destruct (decide (q < 3)) as [Hlt|Hge].
    + exists q, []. split_and!; [ | simpl; lia | ].
      * destruct bound; simpl; (destruct (Z.geb_spec q 3); [lia|done]).
      * change (base3_digits (S (S n)) q)
          with (base3_digits (S n) (q / 3) ++ [q `mod` 3]).
        rewrite Z.div_small, Z.mod_small, base3_digits_zero by lia.
        simpl length. rewrite Nat.sub_0_r. done.
    + destruct bound as [|bound]; [lia|].
      assert (0 ≤ q / 3 < 3 ^ Z.of_nat (S n)) as Hq3.
      { split; [apply Z.div_pos; lia|].
        apply Z.div_lt_upper_bound; [lia|].
        rewrite <- Z.pow_succ_r by lia.
        replace (Z.succ (Z.of_nat (S n))) with (Z.of_nat (S (S n))) by lia. lia. }
      assert (q / 3 ≤ Z.of_nat bound) as Hb3.
      { apply Z.lt_succ_r, Z.div_lt_upper_bound; lia. }
      destruct (IH bound (q / 3) (q `mod` 3 :: acc) Hq3 Hb3)
        as (q' & ds & Hloop & Hlen & Hds).
      exists q', (ds ++ [q `mod` 3]). split_and!.
      * simpl. destruct (Z.geb_spec q 3); [|lia]. simpl.
        rewrite Hloop. by rewrite <- app_assoc.
      * rewrite length_app. simpl. lia.
      * change (base3_digits (S (S n)) q)
          with (base3_digits (S n) (q / 3) ++ [q `mod` 3]).
        rewrite <- Hds, length_app. simpl length.
        replace (S n - (length ds + 1))%nat with (n - length ds)%nat by lia.
        by rewrite <- app_assoc.
Qed.

Lemma rule_in_base_3 (n : nat) r :
  0 ≤ r < 3 ^ Z.of_nat (S n) →
  rule_in_base r 3 (Z.of_nat (S n)) = Returns (base3_digits (S n) r).
Proof.
  intros Hr. unfold rule_in_base.
  destruct (rule_in_base_loop_spec n (S (Z.to_nat r)) r [] Hr)
    as (q' & ds & Hloop & Hlen & Hds); [lia|].
  change (3 <? 0) with false. cbv iota. rewrite Hloop.
  unfold mbind, outcome_bind, mret, outcome_ret. f_equal.
  rewrite app_nil_r, <- Hds. f_equal. f_equal.
  change (length (q' :: ds)) with (S (length ds)). lia.
Qed.




(** [dict(zip(keys, values))] for distinct keys. *)
Lemma foldl_insert_lookup_notin (ks : list (Z * Z)) :
  ∀ (vs : list Z) (m : gmap (Z * Z) Z) k,
  k ∉ ks → foldl (λ d p, <[p.1 := p.2]> d) m (zip ks vs) !! k = m !! k.
Proof.
  induction ks as [|k0 ks IH]; intros [|v0 vs] m k Hk; simpl; try done.
  apply not_elem_of_cons in Hk as [Hne Hk].
  rewrite IH by done. by rewrite lookup_insert_ne.
Qed.

Lemma foldl_insert_lookup_zip (ks : list (Z * Z)) :
  ∀ (vs : list Z) (m : gmap (Z * Z) Z) i k,
  NoDup ks → ks !! i = Some k → (i < length vs)%nat →
  foldl (λ d p, <[p.1 := p.2]> d) m (zip ks vs) !! k = vs !! i.
Proof.
  induction ks as [|k0 ks IH]; intros [|v0 vs] m i k Hnd Hi Hlen;
    simpl in *; try done; try lia.
  apply NoDup_cons in Hnd as [Hk0 Hnd]. destruct i as [|i]; simpl in *.
  - injection Hi as ->. rewrite foldl_insert_lookup_notin by done.
    by rewrite lookup_insert_eq.
  - apply IH; [done|done|lia].
Qed.

Lemma dict_of_zip_lookup (ks : list (Z * Z)) (vs : list Z) i k :
  NoDup ks → ks !! i = Some k → (i < length vs)%nat →
  dict_of (zip ks vs) !! k = vs !! i.
Proof. apply foldl_insert_lookup_zip. Qed.

Lemma dict_of_zip_lookup_notin (ks : list (Z * Z)) (vs : list Z) k :
  k ∉ ks → dict_of (zip ks vs) !! k = None.
Proof.
  intros Hk. unfold dict_of. by rewrite foldl_insert_lookup_notin.
Qed.

Lemma dict_of_zip_dom (ks : list (Z * Z)) (vs : list Z) :
  NoDup ks → length ks = length vs →
  dom (dict_of (zip ks vs)) = list_to_set ks.
Proof.
  intros Hnd Hlen. apply set_eq. intros k.
  rewrite elem_of_dom, elem_of_list_to_set. split.
  - intros Hsome. destruct (decide (k ∈ ks)) as [|Hn]; [done|].
    rewrite dict_of_zip_lookup_notin in Hsome by done. by destruct Hsome.
  - intros [i Hi]%list_elem_of_lookup.
    assert (i < length vs)%nat as Hlt.
    { rewrite <- Hlen. by eapply lookup_lt_Some. }
    rewrite (dict_of_zip_lookup ks vs i k) by done.
    by apply lookup_lt_is_Some.
Qed.

Lemma NoDup_neighborhoods : NoDup neighborhoods.
Proof. compute_done. Qed.

Lemma elem_of_neighborhoods a b :
  (a, b) ∈ neighborhoods ↔ (0 ≤ a < 3 ∧ 0 ≤ b < 3).
Proof.
  unfold neighborhoods. rewrite !elem_of_cons, elem_of_nil. split.
  - intros H. repeat (destruct H as [H|H]; [injection H as -> ->; lia|]). done.
  - intros [Ha Hb].
    assert (a = 0 ∨ a = 1 ∨ a = 2) as [->|[->| ->]] by lia;
    assert (b = 0 ∨ b = 1 ∨ b = 2) as [->|[->| ->]] by lia; tauto.
Qed.

(** The table of a valid rule number, in closed form. *)
Lemma lookup_table_valid r :
  0 ≤ r ≤ 19682 →
  lookup_table (PyInt r)
  = Returns (dict_of (zip neighborhoods (base3_digits 9 r))).
Proof.
  intros Hr. unfold lookup_table.
  destruct (Z.ltb_spec r 0); [lia|]. rewrite Z.gtb_ltb.
  destruct (Z.ltb_spec 19682 r); [lia|].
  cbv [orb]. change (length neighborhoods) with 9%nat.
  rewrite rule_in_base_3 by (change (3 ^ Z.of_nat 9) with 19683; lia). done.
Qed.

Lemma lookup_table_invalid v :
  (∀ r, v = PyInt r → ¬ 0 ≤ r ≤ 19682) → lookup_table v = Raises InvalidRule.
Proof.
  intros Hv. destruct v as [r| | |]; try done. unfold lookup_table.
  destruct (Z.ltb_spec r 0); [done|]. rewrite Z.gtb_ltb.
  destruct (Z.ltb_spec 19682 r); [done|].
  exfalso. apply (Hv r); [done|lia].
Qed.

Lemma lookup_table_total v d : lookup_table v = Returns d → table_total d.
Proof.
  intros Hd a b Ha Hb. destruct v as [r| | |]; try done.
  destruct (decide (0 ≤ r ≤ 19682)) as [Hr|Hr].
  - rewrite lookup_table_valid in Hd by done.
    assert (d = dict_of (zip neighborhoods (base3_digits 9 r))) as ->
      by congruence.
    assert ((a, b) ∈ neighborhoods) as [i Hi]%list_elem_of_lookup
      by by apply elem_of_neighborhoods.
    assert (i < 9)%nat as Hlt by (by apply lookup_lt_Some in Hi).
    rewrite (dict_of_zip_lookup _ _ i) by
      (try apply NoDup_neighborhoods; try rewrite length_base3_digits; done).
    rewrite base3_digits_lookup by lia. eexists; split; [done|].
    apply Z.mod_pos_bound; lia.
  - rewrite lookup_table_invalid in Hd; [done|]. by intros ? [= ->].
Qed.

(** C2. For every rule index in [0, 19682] the decoder returns a table with
    exactly one entry for each of the 9 canonical neighbourhoods and no other
    entry; the entry of the i-th neighbourhood is the i-th digit, most
    significant first, of the rule index written in base 3 on 9 digits.  Rule
    0 maps every neighbourhood to 0 and rule 19682 maps every one to 2. *)
Theorem lookup_table_base3 (r : Z) :
  0 ≤ r ≤ 19682 →
  ∃ d, lookup_table (PyInt r) = Returns d ∧
       dom d = list_to_set neighborhoods ∧
       size d = 9%nat ∧
       (∀ i k, neighborhoods !! i = Some k → d !! k = Some (base3_digit 9 r i)) ∧
       (r = 0 → ∀ k, k ∈ neighborhoods → d !! k = Some 0) ∧
       (r = 19682 → ∀ k, k ∈ neighborhoods → d !! k = Some 2).
Proof.
  intros Hr. eexists. split; [by apply lookup_table_valid|].
  assert (∀ i k, neighborhoods !! i = Some k →
    dict_of (zip neighborhoods (base3_digits 9 r)) !! k
    = Some (base3_digit 9 r i)) as Hdigit.
  { intros i k Hi.
    assert (i < 9)%nat as Hlt by (by apply lookup_lt_Some in Hi).
    rewrite (dict_of_zip_lookup _ _ i) by
      (try apply NoDup_neighborhoods; try rewrite length_base3_digits; done).
    apply base3_digits_lookup; lia. }
  assert (dom (dict_of (zip neighborhoods (base3_digits 9 r)))
          = list_to_set neighborhoods) as Hdom.
  { apply dict_of_zip_dom; [apply NoDup_neighborhoods|].
    by rewrite length_base3_digits. }
  split_and!; [done| |done| |].
  - rewrite <- size_dom, Hdom.
    rewrite size_list_to_set by apply NoDup_neighborhoods. done.
  - intros -> k [i Hi]%list_elem_of_lookup. rewrite (Hdigit i k Hi).
    unfold base3_digit. by rewrite Zdiv_0_l.
  - intros -> k [i Hi]%list_elem_of_lookup. rewrite (Hdigit i k Hi).
    assert (i < 9)%nat as Hlt by (by apply lookup_lt_Some in Hi).
    do 9 (destruct i as [|i]; [done|]). lia.
Qed.

(** A rule index the theorem applies to, with its table read back. *)
Lemma lookup_table_base3_witness :
  0 ≤ 5 ≤ 19682 ∧
  ∃ d, lookup_table (PyInt 5) = Returns d ∧
       dom d = list_to_set neighborhoods ∧
       size d = 9%nat ∧
       (∀ i k, neighborhoods !! i = Some k → d !! k = Some (base3_digit 9 5 i)) ∧
       (5 = 0 → ∀ k, k ∈ neighborhoods → d !! k = Some 0) ∧
       (5 = 19682 → ∀ k, k ∈ neighborhoods → d !! k = Some 2).
Proof. split; [lia|]. apply (lookup_table_base3 5). lia. Defined.

(** ** Loops and indexing *)

Lemma for_in_app {S : Type} (body : Z → S → outcome () * S) xs ys s :
  for_in (xs ++ ys) body s
  = match for_in xs body s with
    | (Returns _, s') => for_in ys body s'
    | r => r
    end.
Proof.
  revert s; induction xs as [|x xs IH]; intros s; simpl; [done|].
  destruct (body x s) as [[[]| |] s']; by rewrite ?IH.
Qed.

(** A body that ignores the loop variable runs once per element. *)
Lemma for_in_length {S : Type} (body : Z → S → outcome () * S) xs ys s :
  (∀ x y s, body x s = body y s) → length xs = length ys →
  for_in xs body s = for_in ys body s.
Proof.
  intros Hbody. revert ys s; induction xs as [|x xs IH]; intros [|y ys] s Hlen;
    simpl in *; try done.
  rewrite (Hbody x y). destruct (body y s) as [[[]| |] s']; try done.
  apply IH. lia.
Qed.

Lemma length_range n : length (range n) = Z.to_nat n.
Proof. unfold range. by rewrite length_fmap, length_seq. Qed.

Lemma list_getitem_in_range (l : list Z) i j :
  j = (if i <? 0 then i + Z.of_nat (length l) else i) →
  0 ≤ j < Z.of_nat (length l) →
  list_getitem l i = Returns (l !!! Z.to_nat j).
Proof.
  intros Hj Hr. unfold list_getitem. cbv zeta. rewrite <- Hj.
  destruct (Z.ltb_spec j 0); [lia|].
  destruct (Z.leb_spec (Z.of_nat (length l)) j); [lia|].
  cbv [orb]. rewrite list_lookup_total_alt.
  destruct (lookup_lt_is_Some_2 l (Z.to_nat j)) as [x ->]; [lia|done].
Qed.

Lemma list_getitem_here (l : list Z) i :
  0 ≤ i < Z.of_nat (length l) → list_getitem l i = Returns (l !!! Z.to_nat i).
Proof.
  intros Hi. apply list_getitem_in_range; [|done].
  destruct (Z.ltb_spec i 0); [lia|done].
Qed.

(** Index [i - 1] wraps around: at [i = 0] it is Python's [l[-1]], the last
    element. *)
Lemma list_getitem_left (l : list Z) i :
  0 ≤ i < Z.of_nat (length l) →
  list_getitem l (i - 1)
  = Returns (l !!! Z.to_nat ((i - 1) `mod` Z.of_nat (length l))).
Proof.
  intros Hi. apply list_getitem_in_range.
  - destruct (Z.ltb_spec (i - 1) 0).
    + symmetry. apply Z.mod_unique with (-1); lia.
    + by rewrite Z.mod_small by lia.
  - apply Z.mod_pos_bound. lia.
Qed.

(** ** One time step *)

Lemma cell_value_elem_of x : x ∈ [0; 1; 2] ↔ cell_value x.
Proof.
  unfold cell_value. rewrite !elem_of_cons, elem_of_nil. lia.
Qed.

Lemma deref_app_old (ls : list nat) (h hs : list (list Z)) :
  Forall (λ l, (l < length h)%nat) ls →
  (λ l, (h ++ hs) !!! l) <$> ls = (λ l, h !!! l) <$> ls.
Proof.
  intros Hls. apply Forall_fmap_ext_1. eapply Forall_impl; [done|].
  intros l Hl. simpl. by apply lookup_total_app_l.
Qed.

Lemma deref_app_new (h : list (list Z)) new : (h ++ [new]) !!! length h = new.
Proof. by rewrite list_lookup_total_middle. Qed.

Lemma evolve_cell_ok self h i acc :
  table_total (TriStateCA.lookup_table self) →
  Forall cell_value (current (self, h)) →
  0 ≤ i < Z.of_nat (length (current (self, h))) →
  ∃ v, TriStateCA.lookup_table self !! neighborhood_at (current (self, h)) i = Some v ∧
       cell_value v ∧
       TriStateCA.evolve_cell self h i acc = (Returns (), acc ++ [v]).
Proof.
  unfold current. simpl. intros Htable Hcells Hi.
  set (cur := h !!! TriStateCA.current_configuration self) in *.
  assert (∀ j, (j < length cur)%nat → cell_value (cur !!! j)) as Hcell.
  { intros j Hj. destruct (lookup_lt_is_Some_2 cur j Hj) as [x Hx].
    rewrite (list_lookup_total_correct _ _ _ Hx).
    by eapply (proj1 (Forall_lookup _ _) Hcells). }
  assert (0 ≤ (i - 1) `mod` Z.of_nat (length cur) < Z.of_nat (length cur))
    as Hleft by (apply Z.mod_pos_bound; lia).
  destruct (Htable (cur !!! Z.to_nat ((i - 1) `mod` Z.of_nat (length cur)))
                   (cur !!! Z.to_nat i)) as (v & Hv & Hrange);
    [apply Hcell; lia..|].
  exists v. split_and!; [done|done|].
  unfold TriStateCA.evolve_cell. fold cur.
  rewrite list_getitem_left, list_getitem_here by done.
  unfold mbind, outcome_bind, dict_getitem.
  unfold neighborhood_at in Hv. by rewrite Hv.
Qed.

(** The inner loop from cell [a] on: it returns, and appends the table's
    output for each neighbourhood of the old configuration. *)
Lemma evolve_cells_ok self h n : ∀ a acc,
  table_total (TriStateCA.lookup_table self) →
  Forall cell_value (current (self, h)) →
  (a + n ≤ length (current (self, h)))%nat →
  ∃ new,
    for_in (Z.of_nat <$> seq a n) (TriStateCA.evolve_cell self h) acc
    = (Returns (), acc ++ new) ∧
    length new = n ∧ Forall cell_value new ∧
    ∀ k, (k < n)%nat →
      new !! k
      = TriStateCA.lookup_table self
          !! neighborhood_at (current (self, h)) (Z.of_nat (a + k)).
Proof.
  induction n as [|n IH]; intros a acc Htable Hcells Hlen.
  - exists []. rewrite app_nil_r. split_and!; [done|done|done|]. intros; lia.
  - destruct (evolve_cell_ok self h (Z.of_nat a) acc Htable Hcells)
      as (v & Hv & Hcell & Hstep); [lia|].
    destruct (IH (S a) (acc ++ [v]) Htable Hcells) as (new & Hloop & Hn & Hnew & Hk);
      [lia|].
    exists (v :: new). split_and!.
    + change (Z.of_nat <$> seq a (S n))
        with (Z.of_nat a :: (Z.of_nat <$> seq (S a) n)).
      cbn [for_in]. rewrite Hstep, Hloop. by rewrite <- app_assoc.
    + simpl. lia.
    + by constructor.
    + intros [|k] Hlt; simpl.
      * by rewrite Nat.add_0_r, Hv.
      * rewrite Hk by lia. do 3 f_equal. lia.
Qed.

(** A step of a well-formed engine returns; it allocates the new
    configuration, names it both as the current configuration and as the last
    history entry, and touches nothing else. *)
Lemma evolve_step_ok C x self h :
  engine_inv C (self, h) →
  ∃ new,
    TriStateCA.evolve_step x (self, h)
    = (Returns (),
       ({| TriStateCA.lookup_table := TriStateCA.lookup_table self;
           TriStateCA.initial := TriStateCA.initial self;
           TriStateCA.spacetime := TriStateCA.spacetime self ++ [length h];
           TriStateCA.current_configuration := length h;
           TriStateCA._length := TriStateCA._length self |},
        h ++ [new])) ∧
    configuration (length C) new ∧
    ∀ i, 0 ≤ i < Z.of_nat (length C) →
      new !! Z.to_nat i
      = TriStateCA.lookup_table self !! neighborhood_at (current (self, h)) i.
Proof.
  intros [Htable Hlength _ _ _ [Hlen Hcells] _ _]. simpl in *.
  destruct (evolve_cells_ok self h (length C) 0 [] Htable Hcells)
    as (new & Hloop & Hn & Hnew & Hk); [lia|].
  exists new. split_and!.
  - unfold TriStateCA.evolve_step, range.
    rewrite Hlength, Nat2Z.id, Hloop. done.
  - done.
  - intros i Hi. rewrite Hk by lia. do 3 f_equal. lia.
Qed.

Lemma evolve_step_inv C x s :
  engine_inv C s →
  ∃ s', TriStateCA.evolve_step x s = (Returns (), s') ∧
        engine_inv C s' ∧
        (∃ new, history s' = history s ++ [new] ∧ s'.2 = s.2 ++ [new]) ∧
        TriStateCA.initial s'.1 = TriStateCA.initial s.1 ∧
        TriStateCA.lookup_table s'.1 = TriStateCA.lookup_table s.1.
Proof.
  destruct s as [self h]. intros Hinv.
  destruct (evolve_step_ok C x self h Hinv) as (new & Hstep & Hnew & _).
  eexists. split; [exact Hstep|].
  destruct Hinv as [Htable Hlength Hinit Hspace Hcur Hcurrent Hhist Hlast].
  simpl in *.
  assert (history
    ({| TriStateCA.lookup_table := TriStateCA.lookup_table self;
        TriStateCA.initial := TriStateCA.initial self;
        TriStateCA.spacetime := TriStateCA.spacetime self ++ [length h];
        TriStateCA.current_configuration := length h;
        TriStateCA._length := TriStateCA._length self |}, h ++ [new])
    = history (self, h) ++ [new]) as Hhistory.
  { unfold history. simpl. rewrite fmap_app. simpl.
    by rewrite deref_app_old, deref_app_new. }
  split_and!; [|by exists new|done|done].
  split; simpl.
  - done.
  - done.
  - rewrite length_app. simpl. lia.
  - rewrite Forall_app, Forall_singleton, length_app. simpl. split; [|lia].
    eapply Forall_impl; [done|]. simpl. lia.
  - rewrite length_app. simpl. lia.
  - unfold current. simpl. by rewrite deref_app_new.
  - rewrite Hhistory, Forall_app, Forall_singleton. done.
  - rewrite Hhistory, last_snoc. unfold current. simpl.
    by rewrite deref_app_new.
Qed.

(** ** Construction and [evolve] *)

Lemma check_initial_condition_ok C :
  Forall cell_value C → TriStateCA.check_initial_condition C = Returns ().
Proof.
  induction 1 as [|x C Hx _ IH]; simpl; [done|].
  rewrite bool_decide_true by by apply cell_value_elem_of. done.
Qed.

Lemma check_initial_condition_bad C :
  ¬ Forall cell_value C →
  TriStateCA.check_initial_condition C = Raises InvalidConfiguration.
Proof.
  induction C as [|x C IH]; intros Hbad; simpl.
  - destruct Hbad. constructor.
  - destruct (decide (cell_value x)) as [Hx|Hx].
    + rewrite bool_decide_true by by apply cell_value_elem_of.
      apply IH. intros HC. apply Hbad. by constructor.
    + rewrite bool_decide_false; [done|]. by rewrite cell_value_elem_of.
Qed.

Lemma Forall_cell_value_dec C : Decision (Forall cell_value C).
Proof. apply Forall_dec. intros x. unfold cell_value. apply _. Qed.

(** Construction in closed form. *)
Lemma init_valid rule_number initial_condition h table :
  Forall cell_value (h !!! initial_condition) →
  lookup_table rule_number = Returns table →
  TriStateCA.__init__ rule_number initial_condition h
  = (Returns {| TriStateCA.lookup_table := table;
                TriStateCA.initial := initial_condition;
                TriStateCA.spacetime := [initial_condition];
                TriStateCA.current_configuration := length h;
                TriStateCA._length := Z.of_nat (length (h !!! initial_condition)) |},
     h ++ [h !!! initial_condition]).
Proof.
  intros HC Htable. unfold TriStateCA.__init__.
  by rewrite check_initial_condition_ok, Htable.
Qed.

Lemma init_Returns rule_number initial_condition h self h' :
  TriStateCA.__init__ rule_number initial_condition h = (Returns self, h') →
  Forall cell_value (h !!! initial_condition) ∧
  ∃ table, lookup_table rule_number = Returns table ∧
    self = {| TriStateCA.lookup_table := table;
              TriStateCA.initial := initial_condition;
              TriStateCA.spacetime := [initial_condition];
              TriStateCA.current_configuration := length h;
              TriStateCA._length := Z.of_nat (length (h !!! initial_condition)) |} ∧
    h' = h ++ [h !!! initial_condition].
Proof.
  intros Hinit.
  destruct (Forall_cell_value_dec (h !!! initial_condition)) as [HC|HC].
  - split; [done|]. destruct (lookup_table rule_number) as [table| |] eqn:Htable.
    + exists table. rewrite (init_valid _ _ _ table) in Hinit by done.
      by injection Hinit as <- <-.
    + unfold TriStateCA.__init__ in Hinit.
      by rewrite check_initial_condition_ok, Htable in Hinit.
    + unfold TriStateCA.__init__ in Hinit.
      by rewrite check_initial_condition_ok, Htable in Hinit.
  - unfold TriStateCA.__init__ in Hinit.
    by rewrite check_initial_condition_bad in Hinit.
Qed.

Lemma init_inv rule_number initial_condition h C self h' :
  h !! initial_condition = Some C →
  TriStateCA.__init__ rule_number initial_condition h = (Returns self, h') →
  engine_inv C (self, h') ∧ history (self, h') = [C] ∧ current (self, h') = C.
Proof.
  intros HC (Hcells & table & Htable & -> & ->)%init_Returns.
  assert (initial_condition < length h)%nat as Hlt by by eapply lookup_lt_Some.
  rewrite (list_lookup_total_correct _ _ _ HC) in *.
  assert (history
    ({| TriStateCA.lookup_table := table;
        TriStateCA.initial := initial_condition;
        TriStateCA.spacetime := [initial_condition];
        TriStateCA.current_configuration := length h;
        TriStateCA._length := Z.of_nat (length C) |}, h ++ [C]) = [C]) as Hhist.
  { unfold history. simpl. rewrite lookup_total_app_l by done.
    by rewrite (list_lookup_total_correct _ _ _ HC). }
  assert (current
    ({| TriStateCA.lookup_table := table;
        TriStateCA.initial := initial_condition;
        TriStateCA.spacetime := [initial_condition];
        TriStateCA.current_configuration := length h;
        TriStateCA._length := Z.of_nat (length C) |}, h ++ [C]) = C) as Hcur.
  { unfold current. simpl. apply deref_app_new. }
  split_and!; [|done|done]. split.
  - by eapply lookup_table_total.
  - done.
  - simpl. rewrite length_app. simpl. lia.
  - simpl. rewrite Forall_singleton, length_app. simpl. lia.
  - simpl. rewrite length_app. simpl. lia.
  - by rewrite Hcur.
  - rewrite Hhist, Forall_singleton. done.
  - by rewrite Hhist, Hcur.
Qed.

Lemma init_bad_configuration rule_number initial_condition h :
  ¬ Forall cell_value (h !!! initial_condition) →
  TriStateCA.__init__ rule_number initial_condition h
  = (Raises InvalidConfiguration, h).
Proof.
  intros HC. unfold TriStateCA.__init__.
  by rewrite check_initial_condition_bad.
Qed.

Lemma init_bad_rule rule_number initial_condition h :
  Forall cell_value (h !!! initial_condition) →
  ¬ valid_rule rule_number →
  TriStateCA.__init__ rule_number initial_condition h = (Raises InvalidRule, h).
Proof.
  intros HC Hrule. unfold TriStateCA.__init__.
  rewrite check_initial_condition_ok, lookup_table_invalid; [done| |done].
  intros r -> Hr. apply Hrule. by exists r.
Qed.

(** [evolve] on an integer that is not negative is the loop of steps. *)
Lemma evolve_int n s :
  0 ≤ n →
  TriStateCA.evolve (PyInt n) s = for_in (range n) TriStateCA.evolve_step s.
Proof.
  intros Hn. unfold TriStateCA.evolve. simpl.
  destruct (Z.ltb_spec n 0); [lia|done].
Qed.

Lemma evolve_step_count time_steps s :
  TriStateCA.evolve time_steps s
  = match step_count time_steps with
    | Returns n => for_in (range n) TriStateCA.evolve_step s
    | Raises e => (Raises e, s)
    | Diverges => (Diverges, s)
    end.
Proof.
  unfold TriStateCA.evolve, step_count.
  destruct (py_lt_zero time_steps) as [[|]|e|]; try done.
  by destruct (py_int time_steps) as [n|[]|].
Qed.

Lemma step_count_terminates time_steps : step_count time_steps ≠ Diverges.
Proof.
  destruct time_steps as [z|[m e| | |]|str|]; unfold step_count; simpl; try done.
  - by destruct (z <? 0).
  - by destruct (m <? 0).
Qed.

(** Whatever the argument, [evolve] either raises at once and leaves the
    state alone, or is the loop of steps for some count. *)
Lemma evolve_cases time_steps s :
  (∃ e, TriStateCA.evolve time_steps s = (Raises e, s)) ∨
  (∃ n, TriStateCA.evolve time_steps s
        = for_in (range n) TriStateCA.evolve_step s).
Proof.
  rewrite evolve_step_count.
  destruct (step_count time_steps) as [n|e|] eqn:Hcount.
  - right. by exists n.
  - left. by exists e.
  - by destruct (step_count_terminates time_steps).
Qed.

Lemma evolve_steps_inv C xs : ∀ s,
  engine_inv C s →
  ∃ s' news,
    for_in xs TriStateCA.evolve_step s = (Returns (), s') ∧
    engine_inv C s' ∧
    history s' = history s ++ news ∧
    s'.2 = s.2 ++ news ∧
    length news = length xs ∧
    TriStateCA.initial s'.1 = TriStateCA.initial s.1 ∧
    TriStateCA.lookup_table s'.1 = TriStateCA.lookup_table s.1.
Proof.
  induction xs as [|x xs IH]; intros s Hinv.
  - exists s, []. by rewrite !app_nil_r.
  - destruct (evolve_step_inv C x s Hinv)
      as (s1 & Hstep & Hinv1 & (new & Hhist1 & Hheap1) & Hinit1 & Htable1).
    destruct (IH s1 Hinv1)
      as (s' & news & Hloop & Hinv' & Hhist' & Hheap' & Hlen & Hinit' & Htable').
    exists s', (new :: news). split_and!.
    + simpl. by rewrite Hstep.
    + done.
    + by rewrite Hhist', Hhist1, <- app_assoc.
    + by rewrite Hheap', Hheap1, <- app_assoc.
    + simpl. by rewrite Hlen.
    + congruence.
    + congruence.
Qed.

Lemma reachable_inv rule_number C s :
  reachable rule_number C s → engine_inv C s.
Proof.
  induction 1 as [h l self h' HC Hinit|s time_steps s' _ IH Hev].
  - by destruct (init_inv _ _ _ _ _ _ HC Hinit).
  - destruct (evolve_cases time_steps s) as [[e He]|[n Hn]]; [congruence|].
    destruct (evolve_steps_inv C (range n) s IH) as (s1 & news & Hloop & Hinv & _).
    congruence.
Qed.

(** Two well-formed engines with the same table and the same current
    configuration take the same steps, wherever their lists live. *)
Lemma evolve_step_same C x s1 s2 s1' s2' :
  engine_inv C s1 → engine_inv C s2 →
  TriStateCA.lookup_table s1.1 = TriStateCA.lookup_table s2.1 →
  current s1 = current s2 →
  TriStateCA.evolve_step x s1 = (Returns (), s1') →
  TriStateCA.evolve_step x s2 = (Returns (), s2') →
  ∃ new, history s1' = history s1 ++ [new] ∧ history s2' = history s2 ++ [new] ∧
         current s1' = new ∧ current s2' = new.
Proof.
  destruct s1 as [self1 h1], s2 as [self2 h2].
  intros Hinv1 Hinv2 Htable Hcur Hstep1 Hstep2. cbn [fst] in Htable.
  destruct (evolve_step_ok C x self1 h1 Hinv1) as (new1 & Hs1 & [Hlen1 _] & Hnew1).
  destruct (evolve_step_ok C x self2 h2 Hinv2) as (new2 & Hs2 & [Hlen2 _] & Hnew2).
  assert (new1 = new2) as <-.
  { apply (list_eq_same_length _ _ (length C)); [done..|].
    intros i x1 x2 Hi Hx1 Hx2.
    specialize (Hnew1 (Z.of_nat i)). specialize (Hnew2 (Z.of_nat i)).
    rewrite Nat2Z.id in Hnew1, Hnew2.
    rewrite Htable, Hcur, <- Hnew2 in Hnew1 by lia. rewrite Hnew1 in Hx1 by lia.
    congruence. }
  rewrite Hs1 in Hstep1. rewrite Hs2 in Hstep2.
  injection Hstep1 as <-. injection Hstep2 as <-.
  exists new1. unfold history, current. simpl. rewrite !fmap_app. simpl.
  rewrite !deref_app_old, !deref_app_new by apply Hinv1 || apply Hinv2.
  done.
Qed.

Lemma evolve_steps_same C xs : ∀ s1 s2,
  engine_inv C s1 → engine_inv C s2 →
  TriStateCA.lookup_table s1.1 = TriStateCA.lookup_table s2.1 →
  current s1 = current s2 →
  ∃ s1' s2' news,
    for_in xs TriStateCA.evolve_step s1 = (Returns (), s1') ∧
    for_in xs TriStateCA.evolve_step s2 = (Returns (), s2') ∧
    history s1' = history s1 ++ news ∧ history s2' = history s2 ++ news ∧
    current s1' = current s2'.
Proof.
  induction xs as [|x xs IH]; intros s1 s2 Hinv1 Hinv2 Htable Hcur.
  - exists s1, s2, []. by rewrite !app_nil_r.
  - destruct (evolve_step_inv C x s1 Hinv1) as (t1 & Hstep1 & Hi1 & _ & _ & Ht1).
    destruct (evolve_step_inv C x s2 Hinv2) as (t2 & Hstep2 & Hi2 & _ & _ & Ht2).
    destruct (evolve_step_same C x s1 s2 t1 t2) as (new & Hh1 & Hh2 & Hc1 & Hc2);
      [done..|].
    destruct (IH t1 t2) as (s1' & s2' & news & Hl1 & Hl2 & Hn1 & Hn2 & Hc);
      [done|done|congruence|congruence|].
    exists s1', s2', (new :: news). simpl. rewrite Hstep1, Hstep2.
    split_and!; [done|done| | |done].
    + by rewrite Hn1, Hh1, <- app_assoc.
    + by rewrite Hn2, Hh2, <- app_assoc.
Qed.

(** ** The claims about the engine *)

(** C1. In every engine state a single evolution step returns, and the new
    configuration has, at each index i of [0, L), the table's output for the
    neighbourhood (old[(i - 1) mod L], old[i]) of the old configuration: the
    lattice is circular, index 0 takes old[L - 1] as its left element, and
    every new value is computed from the old configuration only. *)
Theorem evolve_step_neighborhoods rule_number C s x :
  reachable rule_number C s →
  let old := current s in
  let L := length old in
  ∃ s',
    TriStateCA.evolve_step x s = (Returns (), s') ∧
    TriStateCA.evolve (PyInt 1) s = (Returns (), s') ∧
    length (current s') = L ∧
    (∀ i, 0 ≤ i < Z.of_nat L →
       current s' !! Z.to_nat i
       = TriStateCA.lookup_table s.1
           !! (old !!! Z.to_nat ((i - 1) `mod` Z.of_nat L), old !!! Z.to_nat i)) ∧
    (0 < L →
       current s' !! 0%nat
       = TriStateCA.lookup_table s.1 !! (old !!! (L - 1)%nat, old !!! 0%nat))%nat.
Proof.
  intros Hinv%reachable_inv old L. destruct s as [self h].
  destruct (evolve_step_ok C x self h Hinv) as (new & Hstep & [Hlen _] & Hnew).
  assert (length C = L) as HL by (symmetry; apply Hinv).
  eexists. split_and!.
  - exact Hstep.
  - rewrite evolve_int by lia. change (range 1) with [0]. cbn [for_in].
    change (TriStateCA.evolve_step 0 (self, h))
      with (TriStateCA.evolve_step x (self, h)).
    by rewrite Hstep.
  - unfold current. cbn [fst snd TriStateCA.current_configuration].
    rewrite deref_app_new. congruence.
  - intros i Hi. unfold current at 1. cbn [fst snd TriStateCA.current_configuration].
    rewrite deref_app_new. rewrite Hnew by lia. done.
  - intros HL0. unfold current at 1. cbn [fst snd TriStateCA.current_configuration].
    rewrite deref_app_new. change 0%nat with (Z.to_nat 0) at 1.
    rewrite (Hnew 0) by lia. unfold neighborhood_at.
    fold old. fold L. do 3 f_equal.
    replace ((0 - 1) `mod` Z.of_nat L) with (Z.of_nat L - 1); [lia|].
    apply Z.mod_unique with (-1); lia.
Qed.

Lemma sample_state_reachable : reachable (PyInt 5) [1; 0; 2; 1] sample_state.
Proof.
  apply (reachable_init _ _ [[1; 0; 2; 1]] 0%nat); [reflexivity|].
  apply init_valid.
  - repeat constructor; unfold cell_value; lia.
  - apply lookup_table_valid. lia.
Defined.

Lemma sample_state_evolved_reachable :
  reachable (PyInt 5) [1; 0; 2; 1] sample_state_evolved.
Proof.
  apply (reachable_evolve _ _ sample_state (PyInt 2)).
  - exact sample_state_reachable.
  - reflexivity.
Defined.

(** The theorem on the sample state. *)
Lemma evolve_step_neighborhoods_witness :
  reachable (PyInt 5) [1; 0; 2; 1] sample_state ∧
  let old := current sample_state in
  let L := length old in
  ∃ s',
    TriStateCA.evolve_step 0 sample_state = (Returns (), s') ∧
    TriStateCA.evolve (PyInt 1) sample_state = (Returns (), s') ∧
    length (current s') = L ∧
    (∀ i, 0 ≤ i < Z.of_nat L →
       current s' !! Z.to_nat i
       = TriStateCA.lookup_table sample_state.1
           !! (old !!! Z.to_nat ((i - 1) `mod` Z.of_nat L), old !!! Z.to_nat i)) ∧
    (0 < L →
       current s' !! 0%nat
       = TriStateCA.lookup_table sample_state.1
           !! (old !!! (L - 1)%nat, old !!! 0%nat))%nat.
Proof.
  split; [exact sample_state_reachable|].
  apply (evolve_step_neighborhoods (PyInt 5) [1; 0; 2; 1] sample_state 0).
  exact sample_state_reachable.
Defined.


(** C3. In every engine state and for every step count n that is not
    negative, [evolve(n)] returns; afterwards the history is the old history
    followed by n new configurations, the current configuration is the last
    history entry, and the initial configuration is what it was. *)
Theorem evolve_history rule_number C s n :
  reachable rule_number C s → 0 ≤ n →
  ∃ s' news,
    TriStateCA.evolve (PyInt n) s = (Returns (), s') ∧
    length (history s') = (length (history s) + Z.to_nat n)%nat ∧
    last (history s') = Some (current s') ∧
    TriStateCA.initial s'.1 = TriStateCA.initial s.1 ∧
    s'.2 !!! TriStateCA.initial s'.1 = s.2 !!! TriStateCA.initial s.1 ∧
    history s' = history s ++ news ∧
    (∀ t c, history s !! t = Some c → history s' !! t = Some c).
Proof.
  intros Hinv%reachable_inv Hn.
  destruct (evolve_steps_inv C (range n) s Hinv)
    as (s' & news & Hloop & Hinv' & Hhist & Hheap & Hlen & Hinit & _).
  exists s', news. rewrite evolve_int by done. split_and!.
  - done.
  - by rewrite Hhist, length_app, Hlen, length_range.
  - apply Hinv'.
  - done.
  - rewrite Hinit, Hheap. apply lookup_total_app_l, Hinv.
  - done.
  - intros t c Ht. rewrite Hhist. by apply lookup_app_l_Some.
Qed.

(** The theorem on the sample state, for two steps. *)
Lemma evolve_history_witness :
  reachable (PyInt 5) [1; 0; 2; 1] sample_state ∧ 0 ≤ 2 ∧
  ∃ s' news,
    TriStateCA.evolve (PyInt 2) sample_state = (Returns (), s') ∧
    length (history s') = (length (history sample_state) + Z.to_nat 2)%nat ∧
    last (history s') = Some (current s') ∧
    TriStateCA.initial s'.1 = TriStateCA.initial sample_state.1 ∧
    s'.2 !!! TriStateCA.initial s'.1
    = sample_state.2 !!! TriStateCA.initial sample_state.1 ∧
    history s' = history sample_state ++ news ∧
    (∀ t c, history sample_state !! t = Some c → history s' !! t = Some c).
Proof.
  split; [exact sample_state_reachable|]. split; [lia|].
  apply (evolve_history (PyInt 5) [1; 0; 2; 1] sample_state 2).
  - exact sample_state_reachable.
  - lia.
Defined.


(** C7. From any state, [evolve(n1)] followed by [evolve(n2)] does what the
    single call [evolve(n1 + n2)] does: same outcome, same history, same
    current configuration.  [evolve(0)] returns and changes nothing. *)
Theorem evolve_additive (s : TriStateCA.t * list (list Z)) n1 n2 :
  0 ≤ n1 → 0 ≤ n2 →
  and_then (TriStateCA.evolve (PyInt n1)) (TriStateCA.evolve (PyInt n2)) s
  = TriStateCA.evolve (PyInt (n1 + n2)) s
  ∧ TriStateCA.evolve (PyInt 0) s = (Returns (), s).
Proof.
  intros Hn1 Hn2. split; [|done]. unfold and_then.
  rewrite !evolve_int by lia.
  rewrite (for_in_length _ (range (n1 + n2)) (range n1 ++ range n2)).
  - rewrite for_in_app.
    destruct (for_in (range n1) TriStateCA.evolve_step s) as [[[]| |] s1];
      [|done..].
    by rewrite evolve_int.
  - done.
  - rewrite length_app, !length_range. lia.
Qed.

(** The theorem on the sample state: one step and then two, against three. *)
Lemma evolve_additive_witness :
  0 ≤ 1 ∧ 0 ≤ 2 ∧
  and_then (TriStateCA.evolve (PyInt 1)) (TriStateCA.evolve (PyInt 2)) sample_state
  = TriStateCA.evolve (PyInt (1 + 2)) sample_state
  ∧ TriStateCA.evolve (PyInt 0) sample_state = (Returns (), sample_state).
Proof.
  split; [lia|]. split; [lia|]. apply (evolve_additive sample_state 1 2); lia.
Defined.


(** C8. In every state reached by a valid construction on a configuration
    [C] and any number of successful [evolve] calls, every history entry and
    the current configuration have the length of [C], and all their cells
    are 0, 1 or 2. *)
Theorem reachable_configurations rule_number C s :
  reachable rule_number C s →
  let config c := length c = length C ∧ Forall (λ x, x = 0 ∨ x = 1 ∨ x = 2) c in
  Forall config (history s) ∧ config (current s).
Proof.
  intros Hinv%reachable_inv.
  assert (∀ c, configuration (length C) c →
    length c = length C ∧ Forall (λ x, x = 0 ∨ x = 1 ∨ x = 2) c) as Hconf.
  { intros c [Hlen Hcells]. split; [done|].
    eapply Forall_impl; [done|]. unfold cell_value. intros; simpl; lia. }
  split.
  - eapply Forall_impl; [apply Hinv|]. done.
  - apply Hconf, Hinv.
Qed.

(** The theorem on the sample state after [evolve(2)]: its history is
    [1,0,2,1], [0,0,0,1], [0,0,0,0], the last two written by [evolve]. *)
Lemma reachable_configurations_witness :
  reachable (PyInt 5) [1; 0; 2; 1] sample_state_evolved ∧
  history sample_state_evolved = [[1; 0; 2; 1]; [0; 0; 0; 1]; [0; 0; 0; 0]] ∧
  let config c :=
    length c = length [1; 0; 2; 1] ∧ Forall (λ x, x = 0 ∨ x = 1 ∨ x = 2) c in
  Forall config (history sample_state_evolved) ∧
  config (current sample_state_evolved).
Proof.
  split; [exact sample_state_evolved_reachable|]. split; [reflexivity|].
  apply (reachable_configurations (PyInt 5) [1; 0; 2; 1] sample_state_evolved).
  exact sample_state_evolved_reachable.
Defined.


(** Rule 0 on [1, 0, 2, 1] for one step: every cell becomes 0. *)
Example run_rule_0 :
  run (PyInt 0) 0 (PyInt 1) [[1; 0; 2; 1]]
  = Returns ([[1; 0; 2; 1]; [0; 0; 0; 0]], [0; 0; 0; 0]).
Proof. vm_compute. reflexivity. Qed.

(** Rule 5 maps (2,1) to 1, (2,2) to 2 and the rest to 0; cell 3 of
    [1, 0, 2, 1] has the neighbourhood (2,1). *)
Example run_rule_5 :
  run (PyInt 5) 0 (PyInt 2) [[1; 0; 2; 1]]
  = Returns ([[1; 0; 2; 1]; [0; 0; 0; 1]; [0; 0; 0; 0]], [0; 0; 0; 0]).
Proof. vm_compute. reflexivity. Qed.

(** C9. Two runs with the same rule index, the same step count and initial
    configurations of the same content, in whatever stores and at whatever
    locations, end alike: the same exception, or the same history and the
    same current configuration. *)
Theorem run_deterministic rule_number time_steps C
    (h1 h2 : list (list Z)) (l1 l2 : nat) :
  h1 !! l1 = Some C → h2 !! l2 = Some C →
  run rule_number l1 time_steps h1 = run rule_number l2 time_steps h2.
Proof.
  intros H1 H2. unfold run.
  destruct (Forall_cell_value_dec C) as [HC|HC].
  2:{ rewrite !init_bad_configuration; [done|..];
        by erewrite list_lookup_total_correct. }
  destruct (lookup_table rule_number) as [table| |] eqn:Htable.
  2,3: unfold TriStateCA.__init__;
       rewrite (list_lookup_total_correct _ _ _ H1),
               (list_lookup_total_correct _ _ _ H2),
               check_initial_condition_ok, Htable by done; done.
  assert (Forall cell_value (h1 !!! l1)) as HC1
    by by rewrite (list_lookup_total_correct _ _ _ H1).
  assert (Forall cell_value (h2 !!! l2)) as HC2
    by by rewrite (list_lookup_total_correct _ _ _ H2).
  pose proof (init_valid rule_number l1 h1 table HC1 Htable) as Hinit1.
  pose proof (init_valid rule_number l2 h2 table HC2 Htable) as Hinit2.
  rewrite Hinit1, Hinit2.
  match type of Hinit1 with _ = (Returns ?self, ?h') => set (s1 := (self, h')) end.
  match type of Hinit2 with _ = (Returns ?self, ?h') => set (s2 := (self, h')) end.
  destruct (init_inv rule_number l1 h1 C s1.1 s1.2 H1 Hinit1)
    as (Hinv1 & Hhist1 & Hcur1).
  destruct (init_inv rule_number l2 h2 C s2.1 s2.2 H2 Hinit2)
    as (Hinv2 & Hhist2 & Hcur2).
  change (engine_inv C s1) in Hinv1. change (engine_inv C s2) in Hinv2.
  change (history s1 = [C]) in Hhist1. change (history s2 = [C]) in Hhist2.
  change (current s1 = C) in Hcur1. change (current s2 = C) in Hcur2.
  rewrite !evolve_step_count.
  destruct (step_count time_steps) as [n|e|]; [|done..].
  destruct (evolve_steps_same C (range n) s1 s2)
    as (s1' & s2' & news & -> & -> & Hh1 & Hh2 & Hc); [done|done|done|congruence|].
  f_equal. f_equal; congruence.
Qed.

(** Two runs of rule 5 for three steps on [1, 0, 2, 1], the list being the
    only object of the first store and the second object of the other. *)
Lemma run_deterministic_witness :
  [[1; 0; 2; 1]] !! 0%nat = Some [1; 0; 2; 1] ∧
  [[0]; [1; 0; 2; 1]] !! 1%nat = Some [1; 0; 2; 1] ∧
  run (PyInt 5) 0 (PyInt 3) [[1; 0; 2; 1]]
  = run (PyInt 5) 1 (PyInt 3) [[0]; [1; 0; 2; 1]].
Proof.
  split; [reflexivity|]. split; [reflexivity|].
  apply (run_deterministic (PyInt 5) (PyInt 3) [1; 0; 2; 1]); reflexivity.
Defined.


(** C4. Failing input [evolve("abc")]: a string is no step count, yet the
    call raises [TypeError] from the sign test, not the error of an invalid
    step count; the engine state is left as it was. *)
Theorem evolve_str_raises_TypeError (s : TriStateCA.t * list (list Z)) :
  TriStateCA.evolve (PyStr "abc") s = (Raises TypeError, s) ∧
  TypeError ≠ InvalidStepCount.
Proof. done. Qed.

(** The part of C4 that the code does meet: a negative count, integer or
    float, is refused with the error of an invalid step count before the
    engine is touched; so is a NaN. *)
Lemma evolve_negative_int n (s : TriStateCA.t * list (list Z)) :
  n < 0 → TriStateCA.evolve (PyInt n) s = (Raises InvalidStepCount, s).
Proof.
  intros Hn. unfold TriStateCA.evolve. simpl.
  destruct (Z.ltb_spec n 0); [done|lia].
Qed.

Lemma evolve_negative_float m e (s : TriStateCA.t * list (list Z)) :
  m < 0 →
  TriStateCA.evolve (PyFloat (FFinite m e)) s = (Raises InvalidStepCount, s).
Proof.
  intros Hm. unfold TriStateCA.evolve. simpl.
  destruct (Z.ltb_spec m 0); [done|lia].
Qed.

Lemma evolve_nan (s : TriStateCA.t * list (list Z)) :
  TriStateCA.evolve (PyFloat FNaN) s = (Raises InvalidStepCount, s).
Proof. done. Qed.

(** The other arguments that no coercion accepts end in an exception of
    another type as well. *)
Lemma evolve_none (s : TriStateCA.t * list (list Z)) :
  TriStateCA.evolve PyNone s = (Raises TypeError, s).
Proof. done. Qed.

Lemma evolve_infinity (s : TriStateCA.t * list (list Z)) :
  TriStateCA.evolve (PyFloat FPosInf) s = (Raises OverflowError, s).
Proof. done. Qed.

(** A call that raises on its argument leaves the state as it was. *)
Lemma evolve_refusal_atomic time_steps e (s : TriStateCA.t * list (list Z)) :
  step_count time_steps = Raises e →
  TriStateCA.evolve time_steps s = (Raises e, s).
Proof. intros Hcount. by rewrite evolve_step_count, Hcount. Qed.

(** C5. Construction raises the error of an invalid configuration when some
    cell of the initial configuration is not 0, 1 or 2; with a valid
    configuration it raises the error of an invalid rule when the rule index
    is not an integer of [0, 19682]; it returns otherwise.  So [0, 1, 3] is
    refused as a configuration and 19683 as a rule. *)
Theorem init_validation rule_number initial_condition (h : list (list Z)) :
  let C := h !!! initial_condition in
  (¬ Forall cell_value C →
     TriStateCA.__init__ rule_number initial_condition h
     = (Raises InvalidConfiguration, h)) ∧
  (Forall cell_value C → ¬ valid_rule rule_number →
     lookup_table rule_number = Raises InvalidRule ∧
     TriStateCA.__init__ rule_number initial_condition h
     = (Raises InvalidRule, h)) ∧
  (Forall cell_value C → valid_rule rule_number →
     ∃ self h', TriStateCA.__init__ rule_number initial_condition h
                = (Returns self, h')) ∧
  (C = [0; 1; 3] →
     TriStateCA.__init__ rule_number initial_condition h
     = (Raises InvalidConfiguration, h)) ∧
  (Forall cell_value C →
     TriStateCA.__init__ (PyInt 19683) initial_condition h
     = (Raises InvalidRule, h)).
Proof.
  intros C. split_and!.
  - apply init_bad_configuration.
  - intros HC Hrule. split; [|by apply init_bad_rule].
    apply lookup_table_invalid. intros r -> Hr. apply Hrule. by exists r.
  - intros HC (r & -> & Hr). do 2 eexists.
    apply init_valid; [done|]. by apply lookup_table_valid.
  - intros HC. apply init_bad_configuration. fold C. rewrite HC.
    rewrite !Forall_cons. unfold cell_value. lia.
  - intros HC. apply init_bad_rule; [done|]. intros (r & [= <-] & Hr). lia.
Qed.

(** C10. The configuration is checked before the table is built: when both
    the configuration and the rule index are invalid, the error raised is the
    one of the configuration, not the one of the rule. *)
Theorem init_configuration_checked_first rule_number initial_condition
    (h : list (list Z)) :
  ¬ Forall cell_value (h !!! initial_condition) → ¬ valid_rule rule_number →
  TriStateCA.__init__ rule_number initial_condition h
  = (Raises InvalidConfiguration, h) ∧
  InvalidConfiguration ≠ InvalidRule.
Proof. intros HC _. split; [by apply init_bad_configuration|done]. Qed.

(** Rule 19683 on the configuration [0, 1, 3]: both are invalid. *)
Lemma init_configuration_checked_first_witness :
  ¬ Forall cell_value ([[0; 1; 3]] !!! 0%nat) ∧ ¬ valid_rule (PyInt 19683) ∧
  TriStateCA.__init__ (PyInt 19683) 0%nat [[0; 1; 3]]
  = (Raises InvalidConfiguration, [[0; 1; 3]]) ∧
  InvalidConfiguration ≠ InvalidRule.
Proof.
  assert (¬ Forall cell_value ([[0; 1; 3]] !!! 0%nat)) as HC.
  { simpl. rewrite !Forall_cons. unfold cell_value. lia. }
  assert (¬ valid_rule (PyInt 19683)) as Hrule.
  { intros (r & [= <-] & Hr). lia. }
  split; [exact HC|]. split; [exact Hrule|].
  apply (init_configuration_checked_first (PyInt 19683) 0%nat [[0; 1; 3]] HC Hrule).
Defined.


(** C6. Failing input: the caller builds [ic = [0, 1]], constructs the engine
    on it and then assigns [ic[0] = 2].  The history holds the caller's list
    itself ([self.spacetime = [initial_condition]]), not a copy: its entry
    equals [0, 1] after construction and reads [2, 1] after the caller's
    assignment, while the current configuration, which is a copy, still reads
    [0, 1]. *)
Theorem init_history_aliases_caller :
  let ic := 0%nat in
  ∃ self h',
    TriStateCA.__init__ (PyInt 0) ic [[0; 1]] = (Returns self, h') ∧
    TriStateCA.spacetime self = [ic] ∧
    TriStateCA.current_configuration self ≠ ic ∧
    history (self, h') = [[0; 1]] ∧
    history (self, list_setitem ic 0 2 h') = [[2; 1]] ∧
    current (self, list_setitem ic 0 2 h') = [0; 1].
Proof.
  intros ic. do 2 eexists. split; [|split_and!].
  - apply init_valid.
    + repeat constructor; unfold cell_value; lia.
    + by apply lookup_table_valid.
  - done.
  - done.
  - done.
  - done.
  - done.
Qed.

(** In general the single history entry after construction is the location
    the caller passed. *)
Lemma init_spacetime_alias rule_number initial_condition h self h' :
  TriStateCA.__init__ rule_number initial_condition h = (Returns self, h') →
  TriStateCA.spacetime self = [initial_condition] ∧
  TriStateCA.initial self = initial_condition.
Proof. by intros (_ & table & _ & -> & _)%init_Returns. Qed.

(** ** The numeral conversion in any base *)

Lemma numeral_value_snoc base ds d :
  numeral_value base (ds ++ [d]) = numeral_value base ds * base + d.
Proof. unfold numeral_value. by rewrite foldl_app. Qed.


(** The loop on [q] in a base of at least 2, with a bound of at least [q]:
    it returns the leading digit and the other digits of [q], no more of
    them than [q] needs. *)
Lemma rule_in_base_loop_digits base bound : ∀ q acc,
  2 ≤ base → 0 ≤ q ≤ Z.of_nat bound →
  ∃ q' ds,
    rule_in_base_loop bound base q q acc = Returns (q', ds ++ acc) ∧
    Forall (λ d, 0 ≤ d < base) (q' :: ds) ∧
    numeral_value base (q' :: ds) = q ∧
    q < base ^ Z.of_nat (S (length ds)) ∧
    (1 ≤ q → base ^ Z.of_nat (length ds) ≤ q).
Proof.
  induction bound as [|bound IH]; intros q acc Hbase Hq.
  - exists q, []. assert (q = 0) as -> by lia. simpl.
    destruct (Z.geb_spec 0 base); [lia|]. split_and!; try done; try lia.
    repeat constructor; lia.
  - destruct (decide (q < base)) as [Hlt|Hge].
    + exists q, []. simpl. destruct (Z.geb_spec q base); [lia|].
      split_and!; try done;
        try (repeat constructor; lia);
        try (unfold numeral_value; simpl; lia);
        try (simpl length; change (Z.of_nat 1) with 1; lia);
        try (simpl length; change (Z.of_nat 0) with 0; lia).
    + assert (0 ≤ q / base ≤ Z.of_nat bound) as Hq'.
      { split; [apply Z.div_pos; lia|].
        apply Z.lt_succ_r, Z.div_lt_upper_bound; nia. }
      assert (1 ≤ q / base) as Hone.
      { apply Z.div_le_lower_bound; lia. }
      destruct (IH (q / base) (q `mod` base :: acc) Hbase Hq')
        as (q' & ds & Hloop & Hds & Hval & Hup & Hlow).
      exists q', (ds ++ [q `mod` base]).
      pose proof (Z.mod_pos_bound q base ltac:(lia)) as Hmod.
      pose proof (Z.div_mod q base ltac:(lia)) as Hdm.
      split_and!.
      * simpl. destruct (Z.geb_spec q base); [|lia].
        destruct (Z.eqb_spec base 0); [lia|].
        rewrite Hloop. by rewrite <- app_assoc.
      * rewrite app_comm_cons, Forall_app, Forall_singleton. done.
      * rewrite app_comm_cons, numeral_value_snoc, Hval. lia.
      * rewrite length_app. simpl length.
        replace (Z.of_nat (S (length ds + 1)))
          with (Z.succ (Z.of_nat (S (length ds)))) by lia.
        rewrite Z.pow_succ_r by lia. nia.
      * intros _. rewrite length_app. simpl length.
        replace (Z.of_nat (length ds + 1))
          with (Z.succ (Z.of_nat (length ds))) by lia.
        rewrite Z.pow_succ_r by lia. specialize (Hlow Hone). nia.
Qed.



(** X2. The padding never cuts: the result has at least [key_number] digits,
    and exactly [key_number] of them just when the number is below
    [base ^ key_number]; a larger number comes back longer. *)
Theorem rule_in_base_length rule_number base key_number ds :
  2 ≤ base → 0 ≤ rule_number → 1 ≤ key_number →
  rule_in_base rule_number base key_number = Returns ds →
  key_number ≤ Z.of_nat (length ds) ∧
  (Z.of_nat (length ds) = key_number ↔ rule_number < base ^ key_number).
Proof.
  intros Hbase Hr Hk.
  destruct (rule_in_base_loop_digits base (S (Z.to_nat rule_number))
              rule_number [] Hbase) as (q' & ds' & Hloop & _ & _ & Hup & Hlow);
    [lia|].
  unfold rule_in_base. destruct (Z.ltb_spec base 0); [lia|].
  rewrite Hloop. unfold mbind, outcome_bind, mret, outcome_ret.
  rewrite app_nil_r. intros [= <-].
  rewrite length_app, length_replicate.
  change (length (q' :: ds')) with (S (length ds')).
  split; [lia|]. split.
  - intros Hlen. eapply Z.lt_le_trans; [exact Hup|].
    apply Z.pow_le_mono_r; lia.
  - intros Hlt. destruct (decide (Z.of_nat (S (length ds')) ≤ key_number)); [lia|].
    exfalso. destruct ds' as [|d ds'']; [simpl in *; lia|].
    assert (1 ≤ rule_number) as Hone.
    { destruct (decide (1 ≤ rule_number)); [done|].
      assert (rule_number = 0) as -> by lia.
      simpl in Hloop. destruct (Z.geb_spec 0 base); [lia|]. done. }
    specialize (Hlow Hone).
    assert (base ^ key_number ≤ base ^ Z.of_nat (length (d :: ds''))); [|lia].
    apply Z.pow_le_mono_r; simpl length in *; lia.
Qed.

Lemma rule_in_base_length_witness :
  2 ≤ 3 ∧ 0 ≤ 19683 ∧ 1 ≤ 9 ∧
  rule_in_base 19683 3 9 = Returns [1; 0; 0; 0; 0; 0; 0; 0; 0; 0] ∧
  9 ≤ Z.of_nat (length [1; 0; 0; 0; 0; 0; 0; 0; 0; 0]) ∧
  (Z.of_nat (length [1; 0; 0; 0; 0; 0; 0; 0; 0; 0]) = 9 ↔ 19683 < 3 ^ 9).
Proof.
  split; [lia|]. split; [lia|]. split; [lia|]. split; [reflexivity|].
  apply (rule_in_base_length 19683 3 9); [lia|lia|lia|reflexivity].
Defined.





(** ** Rule numbers and tables correspond one to one *)

Lemma base3_digits_value n : ∀ r,
  0 ≤ r < 3 ^ Z.of_nat n → numeral_value 3 (base3_digits n r) = r.
Proof.
  induction n as [|n IH]; intros r Hr.
  - change (3 ^ Z.of_nat 0) with 1 in Hr. simpl. unfold numeral_value. simpl. lia.
  - change (base3_digits (S n) r) with (base3_digits n (r / 3) ++ [r `mod` 3]).
    rewrite numeral_value_snoc, IH.
    + pose proof (Z.div_mod r 3). lia.
    + split; [apply Z.div_pos; lia|]. apply Z.div_lt_upper_bound; [lia|].
      rewrite <- Z.pow_succ_r by lia.
      replace (Z.succ (Z.of_nat n)) with (Z.of_nat (S n)) by lia. lia.
Qed.

Lemma base3_digits_of_value ds :
  Forall (λ d, 0 ≤ d < 3) ds →
  0 ≤ numeral_value 3 ds < 3 ^ Z.of_nat (length ds) ∧
  base3_digits (length ds) (numeral_value 3 ds) = ds.
Proof.
  induction ds as [|d ds IH] using rev_ind; intros Hds.
  - unfold numeral_value. simpl. split; [lia|done].
  - apply Forall_app in Hds as [Hds Hd]. rewrite Forall_singleton in Hd.
    destruct (IH Hds) as [Hrange Hdigits].
    rewrite numeral_value_snoc, length_app. simpl length.
    replace (length ds + 1)%nat with (S (length ds)) by lia.
    split.
    + replace (Z.of_nat (S (length ds))) with (Z.succ (Z.of_nat (length ds))) by lia.
      rewrite Z.pow_succ_r by lia. lia.
    + change (base3_digits (S (length ds)) (numeral_value 3 ds * 3 + d))
        with (base3_digits (length ds) ((numeral_value 3 ds * 3 + d) / 3)
              ++ [(numeral_value 3 ds * 3 + d) `mod` 3]).
      replace ((numeral_value 3 ds * 3 + d) / 3) with (numeral_value 3 ds).
      2:{ apply Z.div_unique with d; lia. }
      replace ((numeral_value 3 ds * 3 + d) `mod` 3) with d.
      2:{ apply Z.mod_unique with (numeral_value 3 ds); lia. }
      by rewrite Hdigits.
Qed.

(** X4. Two different rule numbers of [0, 19682] never give the same table. *)
Theorem lookup_table_injective r1 r2 :
  0 ≤ r1 ≤ 19682 → 0 ≤ r2 ≤ 19682 →
  lookup_table (PyInt r1) = lookup_table (PyInt r2) → r1 = r2.
Proof.
  intros Hr1 Hr2. rewrite !lookup_table_valid by done. intros Heq.
  assert (dict_of (zip neighborhoods (base3_digits 9 r1))
          = dict_of (zip neighborhoods (base3_digits 9 r2))) as Hd by congruence.
  assert (base3_digits 9 r1 = base3_digits 9 r2) as Hds.
  { apply (list_eq_same_length _ _ 9); [by rewrite length_base3_digits..|].
    intros i x y Hi Hx Hy.
    destruct (lookup_lt_is_Some_2 neighborhoods i) as [k Hk]; [done|].
    pose proof (dict_of_zip_lookup neighborhoods (base3_digits 9 r1) i k
                  NoDup_neighborhoods Hk) as H1.
    pose proof (dict_of_zip_lookup neighborhoods (base3_digits 9 r2) i k
                  NoDup_neighborhoods Hk) as H2.
    rewrite length_base3_digits in H1, H2.
    specialize (H1 Hi). specialize (H2 Hi). congruence. }
  rewrite <- (base3_digits_value 9 r1), <- (base3_digits_value 9 r2), Hds;
    [done|change (3 ^ Z.of_nat 9) with 19683; lia..].
Qed.

Lemma lookup_table_injective_witness :
  0 ≤ 5 ≤ 19682 ∧ 0 ≤ 2 + 3 ≤ 19682 ∧
  lookup_table (PyInt 5) = lookup_table (PyInt (2 + 3)) ∧ 5 = 2 + 3.
Proof.
  split; [lia|]. split; [lia|]. split; [reflexivity|].
  apply (lookup_table_injective 5 (2 + 3)); [lia|lia|reflexivity].
Defined.

(** X5. Every table that has an entry of 0, 1 or 2 for each of the 9
    neighbourhoods, and no other entry, is the table of a rule number of
    [0, 19682]. *)
Theorem lookup_table_surjective (d : gmap (Z * Z) Z) :
  dom d = list_to_set neighborhoods →
  (∀ k v, d !! k = Some v → 0 ≤ v < 3) →
  ∃ r, 0 ≤ r ≤ 19682 ∧ lookup_table (PyInt r) = Returns d.
Proof.
  intros Hdom Hval.
  set (ds := (λ k, default 0 (d !! k)) <$> neighborhoods).
  assert (length ds = 9%nat) as Hlen by done.
  assert (Forall (λ v, 0 ≤ v < 3) ds) as Hds.
  { apply Forall_fmap, Forall_forall. intros k _. simpl.
    destruct (d !! k) as [v|] eqn:Hk; simpl; [by eapply Hval|lia]. }
  destruct (base3_digits_of_value ds Hds) as [Hrange Hdigits].
  rewrite Hlen in Hrange, Hdigits. change (3 ^ Z.of_nat 9) with 19683 in Hrange.
  exists (numeral_value 3 ds). split; [lia|].
  rewrite lookup_table_valid by lia. f_equal. rewrite Hdigits.
  apply map_eq. intros k. destruct (decide (k ∈ neighborhoods)) as [Hin|Hout].
  - destruct (proj1 (list_elem_of_lookup _ _) Hin) as [i Hi].
    rewrite (dict_of_zip_lookup _ _ i k NoDup_neighborhoods Hi)
      by (rewrite Hlen; by apply lookup_lt_Some in Hi).
    unfold ds. rewrite list_lookup_fmap, Hi. simpl.
    assert (is_Some (d !! k)) as [v Hv].
    { apply elem_of_dom. rewrite Hdom. by apply elem_of_list_to_set. }
    by rewrite Hv.
  - rewrite dict_of_zip_lookup_notin by done. symmetry.
    apply not_elem_of_dom. rewrite Hdom. by rewrite elem_of_list_to_set.
Qed.

Lemma lookup_table_surjective_witness :
  let d : gmap (Z * Z) Z :=
    dict_of (zip neighborhoods [0; 0; 0; 1; 1; 1; 2; 2; 2]) in
  dom d = list_to_set neighborhoods ∧
  (∀ k v, d !! k = Some v → 0 ≤ v < 3) ∧
  ∃ r, 0 ≤ r ≤ 19682 ∧ lookup_table (PyInt r) = Returns d.
Proof.
  intros d.
  assert (dom d = list_to_set neighborhoods) as Hdom.
  { apply dict_of_zip_dom; [apply NoDup_neighborhoods|reflexivity]. }
  assert (∀ k v, d !! k = Some v → 0 ≤ v < 3) as Hval.
  { intros k v Hk. destruct (decide (k ∈ neighborhoods)) as [Hin|Hout].
    - destruct (proj1 (list_elem_of_lookup _ _) Hin) as [i Hi].
      unfold d in Hk.
      rewrite (dict_of_zip_lookup _ _ i k NoDup_neighborhoods Hi) in Hk
        by (by apply lookup_lt_Some in Hi).
      do 9 (destruct i as [|i]; [injection Hk as <-; lia|]). done.
    - unfold d in Hk. by rewrite dict_of_zip_lookup_notin in Hk. }
  split; [exact Hdom|]. split; [exact Hval|].
  apply (lookup_table_surjective d Hdom Hval).
Defined.

(** ** Random initial conditions *)

Lemma random_cells_spec xs : ∀ (g : nat → nat),
  random_cells xs g
  = ((λ i, Z.of_nat (g i) `mod` 3) <$> seq 0 (length xs),
     λ i, g (length xs + i)%nat).
Proof.
  induction xs as [|x xs IH]; intros g; [done|].
  cbn [random_cells]. unfold randint. rewrite IH.
  cbn [length seq fmap list_fmap]. rewrite <- fmap_S_seq, <- list_fmap_compose.
  done.
Qed.

Lemma random_string_returns n (g : nat → nat) :
  0 ≤ n →
  ∃ out g',
    random_string (PyInt n) g = (Returns out, g') ∧
    length out = Z.to_nat n ∧
    Forall cell_value out.
Proof.
  intros Hn. unfold random_string. destruct (Z.ltb_spec n 0); [lia|].
  rewrite random_cells_spec, length_range. do 2 eexists. split_and!.
  - done.
  - by rewrite length_fmap, length_seq.
  - apply Forall_fmap, Forall_forall. intros i _. simpl.
    apply Z.mod_pos_bound. lia.
Qed.

(** X6. For a length [n] that is not negative, 0 included, [random_string]
    returns a list of exactly [n] cells, and each of them is 0, 1 or 2, the
    range that [random.randint(0, 2)] promises. *)
Theorem random_string_cells n (g : nat → nat) :
  0 ≤ n →
  ∃ out g',
    random_string (PyInt n) g = (Returns out, g') ∧
    length out = Z.to_nat n ∧
    Forall (λ x, x = 0 ∨ x = 1 ∨ x = 2) out.
Proof.
  intros Hn. unfold random_string. destruct (Z.ltb_spec n 0); [lia|].
  rewrite random_cells_spec, length_range. do 2 eexists. split_and!.
  - done.
  - by rewrite length_fmap, length_seq.
  - apply Forall_fmap, Forall_forall. intros i _. simpl.
    pose proof (Z.mod_pos_bound (Z.of_nat (g i)) 3). lia.
Qed.

Lemma random_string_cells_witness :
  0 ≤ 4 ∧
  ∃ out g',
    random_string (PyInt 4) (λ i, 7 * i + 2)%nat = (Returns out, g') ∧
    length out = Z.to_nat 4 ∧
    Forall (λ x, x = 0 ∨ x = 1 ∨ x = 2) out.
Proof.
  split; [lia|]. apply (random_string_cells 4 (λ i, 7 * i + 2)%nat). lia.
Defined.

(** X7. What [random_string] returns is always accepted by the constructor:
    with a valid rule number, construction on the random list returns, and
    the engine starts with that list as its history and current
    configuration. *)
Theorem random_string_constructs rule_number n (g g' : nat → nat) out
    (h : list (list Z)) :
  valid_rule rule_number →
  random_string (PyInt n) g = (Returns out, g') →
  ∃ self h',
    TriStateCA.__init__ rule_number (length h) (h ++ [out]) = (Returns self, h') ∧
    history (self, h') = [out] ∧ current (self, h') = out ∧
    reachable rule_number out (self, h').
Proof.
  intros (r & -> & Hr) Hrandom.
  assert (0 ≤ n) as Hn.
  { unfold random_string in Hrandom. by destruct (Z.ltb_spec n 0). }
  destruct (random_string_returns n g Hn) as (out' & g'' & Hrs & _ & Hcells).
  assert (out' = out) as -> by congruence.
  assert ((h ++ [out]) !! length h = Some out) as Hout
    by (by apply list_lookup_middle).
  assert (Forall cell_value ((h ++ [out]) !!! length h)) as HC.
  { by rewrite (list_lookup_total_correct _ _ _ Hout). }
  pose proof (init_valid (PyInt r) (length h) (h ++ [out]) _ HC
                (lookup_table_valid r Hr)) as Hinit.
  do 2 eexists. split; [exact Hinit|].
  destruct (init_inv _ _ _ _ _ _ Hout Hinit) as (_ & Hhist & Hcur).
  split_and!; [done|done|]. by eapply reachable_init.
Qed.

Lemma random_string_constructs_witness :
  valid_rule (PyInt 5) ∧
  random_string (PyInt 4) (λ i, 7 * i + 2)%nat
  = (Returns [2; 0; 1; 2], λ i, (7 * (4 + i) + 2)%nat) ∧
  ∃ self h',
    TriStateCA.__init__ (PyInt 5) (length [[1]]) ([[1]] ++ [[2; 0; 1; 2]])
    = (Returns self, h') ∧
    history (self, h') = [[2; 0; 1; 2]] ∧ current (self, h') = [2; 0; 1; 2] ∧
    reachable (PyInt 5) [2; 0; 1; 2] (self, h').
Proof.
  assert (valid_rule (PyInt 5)) as Hrule by (exists 5; split; [reflexivity|lia]).
  split; [exact Hrule|]. split; [reflexivity|].
  apply (random_string_constructs (PyInt 5) 4 (λ i, 7 * i + 2)%nat
           (λ i, (7 * (4 + i) + 2)%nat) [2; 0; 1; 2] [[1]] Hrule).
  reflexivity.
Defined.

(** ** The history as an orbit *)

Lemma successor_unique table c c1 c2 :
  successor table c c1 → successor table c c2 → c1 = c2.
Proof.
  intros [Hlen1 H1] [Hlen2 H2].
  apply (list_eq_same_length _ _ (length c)); [done..|].
  intros i x y Hi Hx Hy.
  specialize (H1 (Z.of_nat i) ltac:(lia)). specialize (H2 (Z.of_nat i) ltac:(lia)).
  rewrite Nat2Z.id in H1, H2. congruence.
Qed.

Lemma orbit_snoc table hist c c' :
  orbit table hist → last hist = Some c → successor table c c' →
  orbit table (hist ++ [c']).
Proof.
  intros Horbit Hlast Hsucc t a b Ha Hb. rewrite last_lookup in Hlast.
  destruct (decide (S t < length hist)%nat) as [Hlt|Hge].
  - rewrite lookup_app_l in Ha, Hb by lia. by eapply Horbit.
  - assert (S t = length hist) as Ht.
    { apply lookup_lt_Some in Hb. rewrite length_app in Hb. simpl in Hb. lia. }
    rewrite lookup_app_l in Ha by lia.
    rewrite Ht, list_lookup_middle in Hb by done.
    replace (pred (length hist)) with t in Hlast by lia.
    assert (a = c) as -> by congruence. assert (b = c') as -> by congruence.
    done.
Qed.

(** A step of a well-formed engine appends the successor of the current
    configuration, at a new location that is also the new current one. *)
Lemma evolve_step_successor C x s s' :
  engine_inv C s →
  TriStateCA.evolve_step x s = (Returns (), s') →
  ∃ new,
    successor (TriStateCA.lookup_table s.1) (current s) new ∧
    history s' = history s ++ [new] ∧ current s' = new ∧
    s'.2 = s.2 ++ [new] ∧
    TriStateCA.spacetime s'.1 = TriStateCA.spacetime s.1 ++ [length s.2] ∧
    TriStateCA.current_configuration s'.1 = length s.2 ∧
    TriStateCA.lookup_table s'.1 = TriStateCA.lookup_table s.1 ∧
    engine_inv C s'.
Proof.
  destruct s as [self h]. intros Hinv Hstep.
  destruct (evolve_step_ok C x self h Hinv) as (new & Hok & [Hlen _] & Hnew).
  destruct (evolve_step_inv C x (self, h) Hinv)
    as (s1 & Hstep1 & Hinv1 & (new1 & Hhist1 & Hheap1) & _).
  assert (s1 = s') as -> by congruence. rewrite Hok in Hstep.
  injection Hstep as <-. simpl in Hheap1.
  assert (new1 = new) as -> by (by apply app_inj_tail in Hheap1 as [_ ->]).
  exists new. split_and!; try done.
  - split; [rewrite Hlen; symmetry; apply Hinv|].
    intros i Hi. apply Hnew. destruct Hinv as [_ _ _ _ _ [Hl _] _ _].
    simpl in Hl. lia.
  - unfold current. simpl. apply deref_app_new.
Qed.

Lemma evolve_steps_orbit C xs : ∀ s s',
  engine_inv C s → orbit (TriStateCA.lookup_table s.1) (history s) →
  for_in xs TriStateCA.evolve_step s = (Returns (), s') →
  orbit (TriStateCA.lookup_table s'.1) (history s').
Proof.
  induction xs as [|x xs IH]; intros s s' Hinv Horbit Hloop.
  - simpl in Hloop. by assert (s = s') as <- by congruence.
  - simpl in Hloop.
    destruct (evolve_step_inv C x s Hinv) as (s1 & Hstep & _).
    rewrite Hstep in Hloop.
    destruct (evolve_step_successor C x s s1 Hinv Hstep)
      as (new & Hsucc & Hhist & _ & _ & _ & _ & Htable & Hinv1).
    apply (IH s1 s'); [done| |done].
    rewrite Htable, Hhist. eapply orbit_snoc; [done| |done]. apply Hinv.
Qed.

Lemma reachable_history_orbit rule_number C s :
  reachable rule_number C s →
  lookup_table rule_number = Returns (TriStateCA.lookup_table s.1) ∧
  history s !! 0%nat = Some C ∧
  orbit (TriStateCA.lookup_table s.1) (history s).
Proof.
  induction 1 as [h l self h' HC Hinit|s time_steps s' Hreach IH Hev].
  - destruct (init_inv _ _ _ _ _ _ HC Hinit) as (_ & Hhist & _).
    apply init_Returns in Hinit as (_ & table & Htable & -> & _).
    rewrite Hhist. split_and!; [done..|]. by intros [|t] c c' Hc Hc'.
  - destruct IH as (Htable & Hfirst & Horbit).
    pose proof (reachable_inv _ _ _ Hreach) as Hinv.
    destruct (evolve_cases time_steps s) as [[e He]|[n Hn]]; [congruence|].
    rewrite Hn in Hev.
    destruct (evolve_steps_inv C (range n) s Hinv)
      as (s1 & news & Hloop & _ & Hhist & _ & _ & _ & Htable1).
    assert (s1 = s') as -> by congruence. split_and!.
    + by rewrite Htable1.
    + rewrite Hhist. by apply lookup_app_l_Some.
    + by eapply evolve_steps_orbit.
Qed.

(** X8. In every engine state the table is the one of the rule number given
    at construction, the history starts with the initial configuration, and
    each later entry is the successor of the one before it: the history is
    the orbit of the initial configuration under the rule. *)
Theorem reachable_orbit rule_number C s :
  reachable rule_number C s →
  lookup_table rule_number = Returns (TriStateCA.lookup_table s.1) ∧
  history s !! 0%nat = Some C ∧
  ∀ t c c', history s !! t = Some c → history s !! S t = Some c' →
    length c' = length c ∧
    ∀ i, 0 ≤ i < Z.of_nat (length c) →
      c' !! Z.to_nat i
      = TriStateCA.lookup_table s.1
          !! (c !!! Z.to_nat ((i - 1) `mod` Z.of_nat (length c)), c !!! Z.to_nat i).
Proof.
  intros (? & ? & Horbit)%reachable_history_orbit.
  split_and!; [done..|]. intros t c c' Hc Hc'. by apply (Horbit t).
Qed.

(** The theorem on the sample state after [evolve(2)], where the history
    has two entries that are successors. *)
Lemma reachable_orbit_witness :
  reachable (PyInt 5) [1; 0; 2; 1] sample_state_evolved ∧
  history sample_state_evolved = [[1; 0; 2; 1]; [0; 0; 0; 1]; [0; 0; 0; 0]] ∧
  lookup_table (PyInt 5)
  = Returns (TriStateCA.lookup_table sample_state_evolved.1) ∧
  history sample_state_evolved !! 0%nat = Some [1; 0; 2; 1] ∧
  ∀ t c c',
    history sample_state_evolved !! t = Some c →
    history sample_state_evolved !! S t = Some c' →
    length c' = length c ∧
    ∀ i, 0 ≤ i < Z.of_nat (length c) →
      c' !! Z.to_nat i
      = TriStateCA.lookup_table sample_state_evolved.1
          !! (c !!! Z.to_nat ((i - 1) `mod` Z.of_nat (length c)), c !!! Z.to_nat i).
Proof.
  split; [exact sample_state_evolved_reachable|]. split; [reflexivity|].
  apply (reachable_orbit (PyInt 5) [1; 0; 2; 1] sample_state_evolved).
  exact sample_state_evolved_reachable.
Defined.

(** ** What [evolve] accepts, and what it leaves alone *)

Lemma step_count_accepted time_steps :
  accepted_step_count time_steps → ∃ n, step_count time_steps = Returns n.
Proof.
  destruct time_steps as [z|[m e| | |]|str|]; simpl; try done; intros Hok.
  - exists z. unfold step_count. simpl. by destruct (Z.ltb_spec z 0); [lia|].
  - eexists. unfold step_count. simpl. by destruct (Z.ltb_spec m 0); [lia|].
Qed.

Lemma step_count_refused time_steps :
  ¬ accepted_step_count time_steps → ∃ e, step_count time_steps = Raises e.
Proof.
  destruct time_steps as [z|[m e| | |]|str|]; simpl; intros Hbad;
    unfold step_count; simpl; try (by eexists).
  - destruct (Z.ltb_spec z 0); [by eexists|lia].
  - destruct (Z.ltb_spec m 0); [by eexists|lia].
Qed.

(** X9. On every engine state [evolve] does one of two things.  Given an
    integer or a finite float that is not negative it returns, and the store
    is the old one followed by new lists: no existing list is written.  Given
    anything else it raises and leaves the engine and the store exactly as
    they were.  It never stops half way. *)
Theorem evolve_accepts_or_refuses rule_number C s time_steps :
  reachable rule_number C s →
  (accepted_step_count time_steps →
     ∃ s' news, TriStateCA.evolve time_steps s = (Returns (), s') ∧
                s'.2 = s.2 ++ news) ∧
  (¬ accepted_step_count time_steps →
     ∃ e, TriStateCA.evolve time_steps s = (Raises e, s)).
Proof.
  intros Hinv%reachable_inv. rewrite evolve_step_count. split.
  - intros (n & ->)%step_count_accepted.
    destruct (evolve_steps_inv C (range n) s Hinv)
      as (s' & news & Hloop & _ & _ & Hheap & _).
    by exists s', news.
  - intros (e & ->)%step_count_refused. by exists e.
Qed.

Lemma evolve_accepts_or_refuses_witness :
  reachable (PyInt 5) [1; 0; 2; 1] sample_state ∧
  (accepted_step_count (PyFloat (FFinite 5 (-1))) →
     ∃ s' news,
       TriStateCA.evolve (PyFloat (FFinite 5 (-1))) sample_state = (Returns (), s') ∧
       s'.2 = sample_state.2 ++ news) ∧
  (¬ accepted_step_count (PyFloat (FFinite 5 (-1))) →
     ∃ e, TriStateCA.evolve (PyFloat (FFinite 5 (-1))) sample_state
          = (Raises e, sample_state)).
Proof.
  split; [exact sample_state_reachable|].
  apply (evolve_accepts_or_refuses (PyInt 5) [1; 0; 2; 1] sample_state
           (PyFloat (FFinite 5 (-1)))).
  exact sample_state_reachable.
Defined.

(** X10. A float step count is cut down to its integer part without a word:
    for a finite float [m * 2^e] that is not negative, [evolve] does what it
    does for the integer [floor (m * 2^e)]; so [evolve(2.5)] is [evolve(2)].
    This holds from every state. *)
Theorem evolve_float_truncates (s : TriStateCA.t * list (list Z)) m e :
  0 ≤ m →
  TriStateCA.evolve (PyFloat (FFinite m e)) s
  = TriStateCA.evolve
      (PyInt (if 0 <=? e then m * 2 ^ e else m / 2 ^ (- e))) s.
Proof.
  intros Hm.
  set (n := if 0 <=? e then m * 2 ^ e else m / 2 ^ (- e)).
  assert (0 ≤ n) as Hn.
  { unfold n. destruct (Z.leb_spec 0 e).
    - apply Z.mul_nonneg_nonneg; [done|]. by apply Z.pow_nonneg.
    - apply Z.div_pos; [done|]. apply Z.pow_pos_nonneg; lia. }
  rewrite evolve_int by done. unfold TriStateCA.evolve. simpl.
  destruct (Z.ltb_spec m 0); [lia|]. unfold n.
  destruct (Z.leb_spec 0 e); [done|].
  rewrite Z.quot_div_nonneg; [done|done|]. apply Z.pow_pos_nonneg; lia.
Qed.

Lemma evolve_float_truncates_witness :
  0 ≤ 5 ∧
  TriStateCA.evolve (PyFloat (FFinite 5 (-1))) sample_state
  = TriStateCA.evolve
      (PyInt (if 0 <=? -1 then 5 * 2 ^ (-1) else 5 / 2 ^ (- -1))) sample_state.
Proof. split; [lia|]. apply (evolve_float_truncates sample_state 5 (-1)). lia. Defined.

(** ** Which lists the engine shares *)

Lemma evolve_steps_sharing C xs : ∀ s s',
  engine_inv C s → NoDup (TriStateCA.spacetime s.1) →
  for_in xs TriStateCA.evolve_step s = (Returns (), s') →
  NoDup (TriStateCA.spacetime s'.1) ∧
  TriStateCA.spacetime s.1 `prefix_of` TriStateCA.spacetime s'.1 ∧
  (xs ≠ [] →
     last (TriStateCA.spacetime s'.1)
     = Some (TriStateCA.current_configuration s'.1)) ∧
  (xs = [] → s' = s).
Proof.
  induction xs as [|x xs IH]; intros s s' Hinv Hnd Hloop.
  - simpl in Hloop. assert (s = s') as <- by congruence. by split_and!.
  - simpl in Hloop.
    destruct (evolve_step_inv C x s Hinv) as (s1 & Hstep & _).
    rewrite Hstep in Hloop.
    destruct (evolve_step_successor C x s s1 Hinv Hstep)
      as (new & _ & _ & _ & _ & Hspace & Hcur & _ & Hinv1).
    assert (NoDup (TriStateCA.spacetime s1.1)) as Hnd1.
    { rewrite Hspace. apply NoDup_app. split_and!; [done| |apply NoDup_singleton].
      intros l Hl ->%list_elem_of_singleton.
      pose proof (proj1 (Forall_forall _ _) (inv_spacetime _ _ Hinv) _ Hl) as Hlt.
      simpl in Hlt. lia. }
    destruct (IH s1 s' Hinv1 Hnd1 Hloop) as (Hnd' & Hpre & Hlast & Hnil).
    split_and!; [done| | |done].
    + etrans; [|exact Hpre]. rewrite Hspace. by apply prefix_app_r.
    + intros _. destruct xs as [|y xs]; [|by apply Hlast].
      rewrite (Hnil eq_refl), Hspace, Hcur. apply last_snoc.
Qed.

(** X11. Which list objects an engine shares.  The history entries are
    pairwise different objects and the first one is the list kept as
    [initial], the caller's own.  Before the first step the current
    configuration is an object of its own; after any step it is the very
    object that ends the history, not a copy of it. *)
Theorem reachable_sharing rule_number C s :
  reachable rule_number C s →
  NoDup (TriStateCA.spacetime s.1) ∧
  TriStateCA.spacetime s.1 !! 0%nat = Some (TriStateCA.initial s.1) ∧
  (length (TriStateCA.spacetime s.1) = 1%nat →
     TriStateCA.current_configuration s.1 ∉ TriStateCA.spacetime s.1) ∧
  (1 < length (TriStateCA.spacetime s.1) →
     last (TriStateCA.spacetime s.1)
     = Some (TriStateCA.current_configuration s.1))%nat.
Proof.
  induction 1 as [h l self h' HC Hinit|s time_steps s' Hreach IH Hev].
  - apply lookup_lt_Some in HC.
    apply init_Returns in Hinit as (_ & table & _ & -> & ->). simpl.
    split_and!; [apply NoDup_singleton|done| |lia].
    intros _. rewrite list_elem_of_singleton. lia.
  - destruct IH as (Hnd & Hfirst & Hone & Hlast).
    pose proof (reachable_inv _ _ _ Hreach) as Hinv.
    destruct (evolve_cases time_steps s) as [[e He]|[n Hn]]; [congruence|].
    rewrite Hn in Hev.
    destruct (evolve_steps_inv C (range n) s Hinv)
      as (s1 & news & Hloop & _ & _ & _ & _ & Hinit1 & _).
    assert (s1 = s') as -> by congruence.
    destruct (evolve_steps_sharing C (range n) s s' Hinv Hnd Hloop)
      as (Hnd' & [ls Hpre] & Hlast' & Hnil).
    destruct (decide (range n = [])) as [Hempty|Hsome].
    { rewrite (Hnil Hempty). by split_and!. }
    specialize (Hlast' Hsome). split_and!; [done| | |done].
    + rewrite Hinit1, Hpre. by apply lookup_app_l_Some.
    + intros Hlen. exfalso.
      assert (ls = []) as ->.
      { apply lookup_lt_Some in Hfirst. rewrite Hpre, length_app in Hlen.
        destruct ls; [done|simpl in Hlen; lia]. }
      rewrite app_nil_r in Hpre.
      destruct (evolve_steps_inv C (range n) s Hinv)
        as (s2 & news2 & Hloop2 & _ & Hhist2 & _ & Hlen2 & _).
      assert (s2 = s') as -> by congruence.
      assert (length (history s') = length (history s)) as Hsame
        by (unfold history; by rewrite !length_fmap, Hpre).
      rewrite Hhist2, length_app, Hlen2 in Hsame.
      destruct (range n); [done|simpl in Hsame; lia].
Qed.

Lemma reachable_sharing_witness :
  reachable (PyInt 5) [1; 0; 2; 1] sample_state ∧
  NoDup (TriStateCA.spacetime sample_state.1) ∧
  TriStateCA.spacetime sample_state.1 !! 0%nat
  = Some (TriStateCA.initial sample_state.1) ∧
  (length (TriStateCA.spacetime sample_state.1) = 1%nat →
     TriStateCA.current_configuration sample_state.1
     ∉ TriStateCA.spacetime sample_state.1) ∧
  (1 < length (TriStateCA.spacetime sample_state.1) →
     last (TriStateCA.spacetime sample_state.1)
     = Some (TriStateCA.current_configuration sample_state.1))%nat.
Proof.
  split; [exact sample_state_reachable|].
  apply (reachable_sharing (PyInt 5) [1; 0; 2; 1] sample_state).
  exact sample_state_reachable.
Defined.

(** ** The lattice has no origin *)

Lemma lookup_total_rotate (c : list Z) k j :
  (j < length c)%nat → rotate k c !!! j = c !!! rotate_nat_add k j (length c).
Proof.
  intros Hj. by rewrite !list_lookup_total_alt, lookup_rotate_r.
Qed.

Lemma successor_rotate table k c c' :
  successor table c c' → successor table (rotate k c) (rotate k c').
Proof.
  intros [Hlen Hsucc]. split; [by rewrite !length_rotate|].
  rewrite length_rotate. intros i Hi.
  set (L := Z.of_nat (length c)) in *.
  rewrite lookup_rotate_r by lia. rewrite Hlen.
  set (j := rotate_nat_add k (Z.to_nat i) (length c)).
  assert (Z.of_nat j = (Z.of_nat k + i) `mod` L) as Hj.
  { unfold j, rotate_nat_add. rewrite (Z2Nat.id i) by lia. fold L.
    rewrite Z2Nat.id; [done|]. apply Z.mod_pos_bound. lia. }
  assert (0 ≤ Z.of_nat j < L) as Hjr by (rewrite Hj; apply Z.mod_pos_bound; lia).
  rewrite <- (Nat2Z.id j) at 1. rewrite Hsucc by done.
  f_equal. unfold neighborhood_at. rewrite length_rotate. fold L.
  assert (0 ≤ (i - 1) `mod` L < L) as Hleft by (apply Z.mod_pos_bound; lia).
  rewrite !lookup_total_rotate by lia. rewrite Nat2Z.id. fold j. f_equal.
  f_equal. unfold rotate_nat_add. f_equal. fold L.
  rewrite Z2Nat.id by lia. rewrite Hj.
  rewrite Zminus_mod_idemp_l, Zplus_mod_idemp_r. f_equal. lia.
Qed.

Lemma Forall_cell_value_rotate k C :
  Forall cell_value C → Forall cell_value (rotate k C).
Proof.
  rewrite !Forall_forall. intros HC x Hx. apply HC. by apply elem_of_rotate in Hx.
Qed.

Lemma evolve_steps_rotate C k xs : ∀ s1 s2 s1',
  engine_inv C s1 → engine_inv (rotate k C) s2 →
  TriStateCA.lookup_table s1.1 = TriStateCA.lookup_table s2.1 →
  current s2 = rotate k (current s1) →
  for_in xs TriStateCA.evolve_step s1 = (Returns (), s1') →
  ∃ s2' news,
    for_in xs TriStateCA.evolve_step s2 = (Returns (), s2') ∧
    history s1' = history s1 ++ news ∧
    history s2' = history s2 ++ (rotate k <$> news) ∧
    current s2' = rotate k (current s1').
Proof.
  induction xs as [|x xs IH]; intros s1 s2 s1' Hinv1 Hinv2 Htable Hcur Hloop.
  - simpl in Hloop. assert (s1 = s1') as <- by congruence.
    exists s2, []. by rewrite !app_nil_r.
  - simpl in Hloop.
    destruct (evolve_step_inv C x s1 Hinv1) as (t1 & Hstep1 & _).
    destruct (evolve_step_inv (rotate k C) x s2 Hinv2) as (t2 & Hstep2 & _).
    rewrite Hstep1 in Hloop.
    destruct (evolve_step_successor C x s1 t1 Hinv1 Hstep1)
      as (new1 & Hsucc1 & Hh1 & Hc1 & _ & _ & _ & Ht1 & Hi1).
    destruct (evolve_step_successor (rotate k C) x s2 t2 Hinv2 Hstep2)
      as (new2 & Hsucc2 & Hh2 & Hc2 & _ & _ & _ & Ht2 & Hi2).
    assert (new2 = rotate k new1) as Hnew.
    { apply (successor_unique (TriStateCA.lookup_table s2.1) (current s2));
        [done|]. rewrite Hcur, <- Htable. by apply successor_rotate. }
    destruct (IH t1 t2 s1' Hi1 Hi2) as (s2' & news & Hl2 & Hn1 & Hn2 & Hc);
      [congruence|congruence|done|].
    exists s2', (new1 :: news). simpl. rewrite Hstep2.
    split_and!; [done| | |done].
    + by rewrite Hn1, Hh1, <- app_assoc.
    + by rewrite Hn2, Hh2, Hnew, <- app_assoc.
Qed.

(** X12. The lattice is a ring with no distinguished cell: a run on the
    initial configuration rotated by [k] cells gives, entry by entry, the
    history of the run on the unrotated one rotated by [k] cells, and
    likewise the current configuration. *)
Theorem run_rotate rule_number time_steps C k
    (h1 h2 : list (list Z)) (l1 l2 : nat) hist cur :
  h1 !! l1 = Some C → h2 !! l2 = Some (rotate k C) →
  run rule_number l1 time_steps h1 = Returns (hist, cur) →
  run rule_number l2 time_steps h2 = Returns (rotate k <$> hist, rotate k cur).
Proof.
  intros H1 H2. unfold run.
  destruct (Forall_cell_value_dec C) as [HC|HC].
  2:{ rewrite init_bad_configuration; [done|].
      by rewrite (list_lookup_total_correct _ _ _ H1). }
  destruct (lookup_table rule_number) as [table| |] eqn:Htable.
  2,3: unfold TriStateCA.__init__;
       rewrite (list_lookup_total_correct _ _ _ H1),
               check_initial_condition_ok, Htable by done; done.
  assert (Forall cell_value (h1 !!! l1)) as HC1
    by by rewrite (list_lookup_total_correct _ _ _ H1).
  assert (Forall cell_value (h2 !!! l2)) as HC2.
  { rewrite (list_lookup_total_correct _ _ _ H2).
    by apply Forall_cell_value_rotate. }
  pose proof (init_valid rule_number l1 h1 table HC1 Htable) as Hinit1.
  pose proof (init_valid rule_number l2 h2 table HC2 Htable) as Hinit2.
  rewrite Hinit1, Hinit2.
  match type of Hinit1 with _ = (Returns ?self, ?h') => set (s1 := (self, h')) end.
  match type of Hinit2 with _ = (Returns ?self, ?h') => set (s2 := (self, h')) end.
  destruct (init_inv rule_number l1 h1 C s1.1 s1.2 H1 Hinit1)
    as (Hinv1 & Hhist1 & Hcur1).
  destruct (init_inv rule_number l2 h2 (rotate k C) s2.1 s2.2 H2 Hinit2)
    as (Hinv2 & Hhist2 & Hcur2).
  change (engine_inv C s1) in Hinv1. change (engine_inv (rotate k C) s2) in Hinv2.
  change (history s1 = [C]) in Hhist1.
  change (history s2 = [rotate k C]) in Hhist2.
  change (current s1 = C) in Hcur1. change (current s2 = rotate k C) in Hcur2.
  rewrite !evolve_step_count.
  destruct (step_count time_steps) as [n|e|]; [|done..].
  destruct (evolve_steps_inv C (range n) s1 Hinv1) as (s1' & news1 & Hloop1 & _).
  rewrite Hloop1.
  destruct (evolve_steps_rotate C k (range n) s1 s2 s1' Hinv1 Hinv2)
    as (s2' & news & -> & Hh1 & Hh2 & Hc); [done|congruence|done|].
  intros [= <- <-]. f_equal. f_equal; [|done].
  by rewrite Hh1, Hh2, Hhist1, Hhist2, fmap_app.
Qed.

Lemma run_rotate_witness :
  [[1; 0; 2; 1]] !! 0%nat = Some [1; 0; 2; 1] ∧
  [[0; 2; 1; 1]] !! 0%nat = Some (rotate 1 [1; 0; 2; 1]) ∧
  run (PyInt 5) 0 (PyInt 2) [[1; 0; 2; 1]]
  = Returns ([[1; 0; 2; 1]; [0; 0; 0; 1]; [0; 0; 0; 0]], [0; 0; 0; 0]) ∧
  run (PyInt 5) 0 (PyInt 2) [[0; 2; 1; 1]]
  = Returns (rotate 1 <$> [[1; 0; 2; 1]; [0; 0; 0; 1]; [0; 0; 0; 0]],
             rotate 1 [0; 0; 0; 0]).
Proof.
  split; [reflexivity|]. split; [reflexivity|]. split; [reflexivity|].
  apply (run_rotate (PyInt 5) (PyInt 2) [1; 0; 2; 1] 1
           [[1; 0; 2; 1]] [[0; 2; 1; 1]] 0 0); reflexivity.
Defined.

(** ** Runs and their histories *)

Lemma run_reachable rule_number time_steps C (h : list (list Z)) (l : nat)
    hist cur :
  h !! l = Some C →
  run rule_number l time_steps h = Returns (hist, cur) →
  ∃ s, reachable rule_number C s ∧ history s = hist ∧ current s = cur.
Proof.
  intros HC. unfold run.
  destruct (TriStateCA.__init__ rule_number l h) as [[self| |] h'] eqn:Hinit;
    [|done..].
  destruct (TriStateCA.evolve time_steps (self, h')) as [[[]| |] s'] eqn:Hev;
    [|done..].
  intros [= <- <-]. exists s'. split; [|done].
  eapply reachable_evolve; [|exact Hev]. by eapply reachable_init.
Qed.

Lemma successor_replicate table L x c' :
  successor table (replicate L x) c' →
  ∃ y, c' = replicate L y ∧ (0 < L → table !! (x, x) = Some y)%nat.
Proof.
  unfold successor. rewrite length_replicate. intros [Hlen Hsucc].
  destruct L as [|L].
  { exists x. split; [|lia]. by destruct c'. }
  assert (∀ i, (i < S L)%nat → c' !! i = table !! (x, x)) as Hcell.
  { intros i Hi. specialize (Hsucc (Z.of_nat i) ltac:(lia)).
    rewrite Nat2Z.id in Hsucc. rewrite Hsucc. unfold neighborhood_at.
    rewrite length_replicate.
    pose proof (Z.mod_pos_bound (Z.of_nat i - 1) (Z.of_nat (S L))).
    rewrite (lookup_total_replicate_2 (S L) x
               (Z.to_nat ((Z.of_nat i - 1) `mod` Z.of_nat (S L)))) by lia.
    by rewrite (lookup_total_replicate_2 (S L) x (Z.to_nat (Z.of_nat i))) by lia. }
  destruct (lookup_lt_is_Some_2 c' 0) as [y Hy]; [lia|].
  assert (table !! (x, x) = Some y) as Hxy by (by rewrite <- (Hcell 0%nat) by lia).
  exists y. split; [|done].
  apply (list_eq_same_length _ _ (S L)); [by rewrite length_replicate|done|].
  intros i a b Hi Ha Hb. rewrite lookup_replicate_2 in Hb by done.
  rewrite (Hcell i Hi), Hxy in Ha. congruence.
Qed.

(** X13. A homogeneous configuration stays homogeneous: started on [L]
    cells of one value, every history entry is [L] cells of one value.  If
    the table maps the neighbourhood [(x, x)] to [x], the engine started on
    all-[x] never moves. *)
Theorem reachable_homogeneous rule_number L x s :
  reachable rule_number (replicate L x) s →
  Forall (λ c, ∃ y, c = replicate L y) (history s) ∧
  (TriStateCA.lookup_table s.1 !! (x, x) = Some x →
     Forall (λ c, c = replicate L x) (history s)).
Proof.
  intros (_ & Hfirst & Horbit)%reachable_history_orbit. split.
  - apply Forall_lookup. intros t. induction t as [|t IH]; intros c Hc.
    + exists x. congruence.
    + destruct (lookup_lt_is_Some_2 (history s) t) as [c0 Hc0].
      { apply lookup_lt_Some in Hc. lia. }
      destruct (IH c0 Hc0) as [y0 ->].
      destruct (successor_replicate _ L y0 c (Horbit t _ _ Hc0 Hc)) as (y & -> & _).
      by exists y.
  - intros Hfix. apply Forall_lookup. intros t.
    induction t as [|t IH]; intros c Hc; [congruence|].
    destruct (lookup_lt_is_Some_2 (history s) t) as [c0 Hc0].
    { apply lookup_lt_Some in Hc. lia. }
    rewrite (IH c0 Hc0) in Hc0.
    destruct (successor_replicate _ L x c (Horbit t _ _ Hc0 Hc)) as (y & -> & Hy).
    destruct L as [|L]; [done|]. specialize (Hy ltac:(lia)). congruence.
Qed.

(** The theorem on rule 5 constructed on [2, 2, 2] and evolved by two
    steps; rule 5 maps the neighbourhood (2, 2) to 2. *)
Lemma reachable_homogeneous_witness :
  reachable (PyInt 5) (replicate 3 2) homogeneous_state_evolved ∧
  history homogeneous_state_evolved = [[2; 2; 2]; [2; 2; 2]; [2; 2; 2]] ∧
  TriStateCA.lookup_table homogeneous_state_evolved.1 !! (2, 2) = Some 2 ∧
  Forall (λ c, ∃ y, c = replicate 3 y) (history homogeneous_state_evolved) ∧
  (TriStateCA.lookup_table homogeneous_state_evolved.1 !! (2, 2) = Some 2 →
     Forall (λ c, c = replicate 3 2) (history homogeneous_state_evolved)).
Proof.
  assert (reachable (PyInt 5) (replicate 3 2) homogeneous_state_evolved) as Hreach.
  { apply (reachable_evolve _ _
             ({| TriStateCA.lookup_table :=
                   dict_of (zip neighborhoods (base3_digits 9 5));
                 TriStateCA.initial := 0%nat;
                 TriStateCA.spacetime := [0%nat];
                 TriStateCA.current_configuration := 1%nat;
                 TriStateCA._length := 3 |},
              [[2; 2; 2]; [2; 2; 2]]) (PyInt 2)); [|reflexivity].
    apply (reachable_init _ _ [[2; 2; 2]] 0%nat); [reflexivity|].
    apply init_valid.
    - repeat constructor; unfold cell_value; lia.
    - apply lookup_table_valid. lia. }
  split; [exact Hreach|]. split; [reflexivity|]. split; [reflexivity|].
  apply (reachable_homogeneous (PyInt 5) 3 2 homogeneous_state_evolved Hreach).
Defined.

(** ** Information moves one cell per step *)

Lemma successor_agree table a b a' b' n i :
  length a = length b → (0 < length a)%nat →
  successor table a a' → successor table b b' →
  agree_back (S n) i a b → agree_back n i a' b'.
Proof.
  intros Hlen Hpos [Hlena Ha] [Hlenb Hb] Hagree j Hj.
  rewrite Hlena. set (L := Z.of_nat (length a)) in *.
  assert (0 ≤ (i - j) `mod` L < L) as Hp by (apply Z.mod_pos_bound; lia).
  rewrite Ha by done. rewrite Hb by (rewrite <- Hlen; done).
  f_equal. unfold neighborhood_at. rewrite <- Hlen. fold L.
  rewrite Zminus_mod_idemp_l.
  rewrite !list_lookup_total_alt.
  pose proof (Hagree j ltac:(lia)) as H0.
  pose proof (Hagree (j + 1) ltac:(lia)) as H1. fold L in H0, H1.
  replace (i - (j + 1)) with (i - j - 1) in H1 by lia.
  by rewrite H0, H1.
Qed.

Lemma orbit_agree table hist1 hist2 a b i :
  orbit table hist1 → orbit table hist2 →
  hist1 !! 0%nat = Some a → hist2 !! 0%nat = Some b →
  length a = length b → (0 < length a)%nat →
  ∀ t n c1 c2,
    agree_back (t + n) i a b →
    hist1 !! t = Some c1 → hist2 !! t = Some c2 →
    length c1 = length a ∧ length c2 = length a ∧ agree_back n i c1 c2.
Proof.
  intros Ho1 Ho2 H1 H2 Hlen Hpos t.
  induction t as [|t IH]; intros n c1 c2 Hagree Hc1 Hc2.
  - assert (c1 = a) as -> by congruence. assert (c2 = b) as -> by congruence.
    done.
  - destruct (lookup_lt_is_Some_2 hist1 t) as [p1 Hp1].
    { apply lookup_lt_Some in Hc1. lia. }
    destruct (lookup_lt_is_Some_2 hist2 t) as [p2 Hp2].
    { apply lookup_lt_Some in Hc2. lia. }
    destruct (IH (S n) p1 p2) as (Hl1 & Hl2 & Hprev); [|done|done|].
    { by replace (t + S n)%nat with (S t + n)%nat by lia. }
    pose proof (Ho1 t _ _ Hp1 Hc1) as Hs1. pose proof (Ho2 t _ _ Hp2 Hc2) as Hs2.
    split_and!.
    + destruct Hs1 as [-> _]. done.
    + destruct Hs2 as [-> _]. done.
    + eapply (successor_agree table p1 p2); [congruence|lia|done|done|done].
Qed.

(** X14. Information moves one cell to the right per step and no faster:
    if two initial configurations of the same length hold the same values in
    cell [i] and in the [t] cells to its left (around the ring), then under
    the same rule the configurations after [t] steps hold the same value in
    cell [i], whatever the other cells are. *)
Theorem run_light_cone rule_number time_steps1 time_steps2 C1 C2
    (h1 h2 : list (list Z)) (l1 l2 : nat) hist1 cur1 hist2 cur2 t i c1 c2 :
  h1 !! l1 = Some C1 → h2 !! l2 = Some C2 →
  length C1 = length C2 → 0 ≤ i < Z.of_nat (length C1) →
  (∀ j, 0 ≤ j ≤ Z.of_nat t →
     C1 !! Z.to_nat ((i - j) `mod` Z.of_nat (length C1))
     = C2 !! Z.to_nat ((i - j) `mod` Z.of_nat (length C1))) →
  run rule_number l1 time_steps1 h1 = Returns (hist1, cur1) →
  run rule_number l2 time_steps2 h2 = Returns (hist2, cur2) →
  hist1 !! t = Some c1 → hist2 !! t = Some c2 →
  c1 !! Z.to_nat i = c2 !! Z.to_nat i.
Proof.
  intros H1 H2 Hlen Hi Hagree Hrun1 Hrun2 Hc1 Hc2.
  destruct (run_reachable _ _ _ _ _ _ _ H1 Hrun1) as (s1 & Hr1 & <- & _).
  destruct (run_reachable _ _ _ _ _ _ _ H2 Hrun2) as (s2 & Hr2 & <- & _).
  apply reachable_history_orbit in Hr1 as (Ht1 & Hf1 & Ho1).
  apply reachable_history_orbit in Hr2 as (Ht2 & Hf2 & Ho2).
  assert (TriStateCA.lookup_table s2.1 = TriStateCA.lookup_table s1.1) as Htable
    by congruence.
  rewrite Htable in Ho2.
  destruct (orbit_agree _ _ _ C1 C2 i Ho1 Ho2 Hf1 Hf2 Hlen ltac:(lia) t 0%nat c1 c2)
    as (Hl1 & _ & Hcell); [|done|done|].
  { by rewrite Nat.add_0_r. }
  specialize (Hcell 0 ltac:(lia)). rewrite Hl1, Z.sub_0_r in Hcell.
  by rewrite Z.mod_small in Hcell by lia.
Qed.

Lemma run_light_cone_witness :
  [[1; 0; 2; 1]] !! 0%nat = Some [1; 0; 2; 1] ∧
  [[0; 1; 2; 1]] !! 0%nat = Some [0; 1; 2; 1] ∧
  length [1; 0; 2; 1] = length [0; 1; 2; 1] ∧
  0 ≤ 3 < Z.of_nat (length [1; 0; 2; 1]) ∧
  (∀ j, 0 ≤ j ≤ Z.of_nat 1 →
     [1; 0; 2; 1] !! Z.to_nat ((3 - j) `mod` Z.of_nat (length [1; 0; 2; 1]))
     = [0; 1; 2; 1] !! Z.to_nat ((3 - j) `mod` Z.of_nat (length [1; 0; 2; 1]))) ∧
  run (PyInt 5) 0 (PyInt 1) [[1; 0; 2; 1]]
  = Returns ([[1; 0; 2; 1]; [0; 0; 0; 1]], [0; 0; 0; 1]) ∧
  run (PyInt 5) 0 (PyInt 2) [[0; 1; 2; 1]]
  = Returns ([[0; 1; 2; 1]; [0; 0; 0; 1]; [0; 0; 0; 0]], [0; 0; 0; 0]) ∧
  [[1; 0; 2; 1]; [0; 0; 0; 1]] !! 1%nat = Some [0; 0; 0; 1] ∧
  [[0; 1; 2; 1]; [0; 0; 0; 1]; [0; 0; 0; 0]] !! 1%nat = Some [0; 0; 0; 1] ∧
  [0; 0; 0; 1] !! Z.to_nat 3 = [0; 0; 0; 1] !! Z.to_nat 3.
Proof.
  assert (∀ j, 0 ≤ j ≤ Z.of_nat 1 →
     [1; 0; 2; 1] !! Z.to_nat ((3 - j) `mod` Z.of_nat (length [1; 0; 2; 1]))
     = [0; 1; 2; 1] !! Z.to_nat ((3 - j) `mod` Z.of_nat (length [1; 0; 2; 1])))
    as Hagree.
  { intros j Hj. assert (j = 0 ∨ j = 1) as [-> | ->] by lia; reflexivity. }
  split; [reflexivity|]. split; [reflexivity|]. split; [reflexivity|].
  split; [simpl; lia|]. split; [exact Hagree|].
  split; [reflexivity|]. split; [reflexivity|].
  split; [reflexivity|]. split; [reflexivity|].
  apply (run_light_cone (PyInt 5) (PyInt 1) (PyInt 2) [1; 0; 2; 1] [0; 1; 2; 1]
           [[1; 0; 2; 1]] [[0; 1; 2; 1]] 0 0
           [[1; 0; 2; 1]; [0; 0; 0; 1]] [0; 0; 0; 1]
           [[0; 1; 2; 1]; [0; 0; 0; 1]; [0; 0; 0; 0]] [0; 0; 0; 0]
           1 3 [0; 0; 0; 1] [0; 0; 0; 1]);
    [reflexivity|reflexivity|reflexivity|simpl; lia|exact Hagree|
     reflexivity|reflexivity|reflexivity|reflexivity].
Defined.
